(** * Connect Four rules engine (games/connect4.py)

    A shallow embedding of the [Player] and [Game] classes of
    [src/games/connect4.py], and the properties of its rules engine.

    - Python integers are [Z]; list positions are [nat].
    - A numpy 2-D integer array is a list of rows ([np.ndarray]).  Arrays are
      mutable objects: they live in a store ([heap]) and the game holds
      references ([loc]) to them, so that [x.copy()] and in-place item
      assignment keep their meaning.
    - A method of [Game] is a computation in a state-and-exception monad over
      the [World] (the store and the fields of [self]). *)

From stdpp Require Import base option list list_numbers strings pretty numbers sorting.
From Stdlib Require Import ZArith Lia Ascii.

Local Open Scope Z_scope.
#[local] Set Warnings "-clear-no-such-hyp".

(** ** Python builtins used by the module *)

Module py.

(** [str(v)] for an integer. *)
Definition str (v : Z) : string := pretty v.

(** [sep.join(l)]. *)
Definition join (sep : string) (l : list string) : string :=
  String.concat sep l.

(** [pat in s] for two strings: [pat] occurs in [s] as a substring. *)
Fixpoint str_in (pat s : string) : bool :=
  String.prefix pat s ||
  match s with
  | EmptyString => false
  | String _ s' => str_in pat s'
  end.

(** One bound of a slice [l[a:b]], normalised against the length [n]:
    a negative bound counts from the end, and both are clipped. *)
Definition slice_bound (n : nat) (k : Z) : nat :=
  if decide (k < 0) then Z.to_nat (Z.max 0 (k + Z.of_nat n))
  else Z.to_nat (Z.min k (Z.of_nat n)).

(** [l[a:b]]. *)
Definition slice {A} (l : list A) (a b : Z) : list A :=
  let s := slice_bound (length l) a in
  let e := slice_bound (length l) b in
  take (e - s)%nat (drop s l).

(** [itertools.cycle(items)]: the saved items and the position of the
    element that the next call of [next] yields. *)
Record cycle (A : Type) := mkCycle { saved : list A; pos : nat }.
Global Arguments mkCycle {A} _ _.
Global Arguments saved {A} _.
Global Arguments pos {A} _.

Definition cycle_of {A} (items : list A) : cycle A := mkCycle items 0.

(** [next(c)]: the yielded element and the advanced iterator; [None] stands
    for [StopIteration] (a cycle over no item). *)
Definition next {A} (c : cycle A) : option (A * cycle A) :=
  x ← saved c !! pos c;
  Some (x, mkCycle (saved c) (S (pos c) `mod` length (saved c))%nat).

End py.

(** ** The numpy operations used by the module *)

Module np.

(** A 2-D integer array, as the list of its rows. *)
Abbreviation ndarray := (list (list Z)).

(** [np.zeros((rows, cols), dtype=int)]. *)
Definition zeros (shape : nat * nat) : ndarray :=
  replicate shape.1 (replicate shape.2 0).

(** Number of columns (taken from the first row; an array with no row has
    no cell either way). *)
Definition ncols {A} (x : list (list A)) : nat :=
  match x with
  | [] => 0%nat
  | r :: _ => length r
  end.

(** An integer index against an axis of length [n]: a negative index counts
    from the end, [None] stands for [IndexError]. *)
Definition index (n : nat) (i : Z) : option nat :=
  if decide (0 ≤ i < Z.of_nat n) then Some (Z.to_nat i)
  else if decide (- Z.of_nat n ≤ i < 0) then Some (Z.to_nat (i + Z.of_nat n))
  else None.

(** [x[i]] for a 1-D array. *)
Definition getitem1 (r : list Z) (j : Z) : option Z :=
  k ← index (length r) j; r !! k.

(** [x[i]] : row [i] of a 2-D array. *)
Definition row (x : ndarray) (i : Z) : option (list Z) :=
  k ← index (length x) i; x !! k.

(** [x[:, j]] : column [j]. *)
Definition column (x : ndarray) (j : Z) : option (list Z) :=
  mapM (λ r, getitem1 r j) x.

(** [x[i, j] = v], in place (the caller stores the result back). *)
Definition setitem (x : ndarray) (i j : Z) (v : Z) : option ndarray :=
  k ← index (length x) i;
  r ← x !! k;
  c ← index (length r) j;
  Some (<[k := <[c := v]> r]> x).

(** [x[:, ::-1]] : every row reversed. *)
Definition fliplr (x : ndarray) : ndarray := reverse <$> x.

(** The cells [x[0, c], x[1, c+1], ...] as long as they exist. *)
Fixpoint diag_from (x : ndarray) (c : nat) : list Z :=
  match x with
  | [] => []
  | r :: x' =>
      match r !! c with
      | Some v => v :: diag_from x' (S c)
      | None => []
      end
  end.

(** [np.diagonal(x, offset=k)]. *)
Definition diagonal (x : ndarray) (offset : Z) : list Z :=
  if decide (0 ≤ offset) then diag_from x (Z.to_nat offset)
  else diag_from (drop (Z.to_nat (- offset)) x) 0.

(** [np.isin(x, values, invert=True)]. *)
Definition isin_invert (x : ndarray) (values : list Z) : list (list bool) :=
  (λ r : list Z, (λ v, negb (bool_decide (v ∈ values))) <$> r) <$> x.

(** [b.sum(axis=0)] for a boolean array: the number of [True] per column. *)
Definition sum_axis0 (b : list (list bool)) : list Z :=
  (λ c, Z.of_nat (length (filter (λ r : list bool, r !! c = Some true) b)))
    <$> seq 0 (ncols b).

(** [np.argwhere(v).ravel().tolist()] for a 1-D array: the positions of the
    non-zero entries, in ascending order. *)
Definition argwhere (v : list Z) : list Z :=
  Z.of_nat <$> filter (λ k, v !! k ≠ Some 0) (seq 0 (length v)).

(** [sum(col != 0)] : the number of non-zero entries. *)
Definition count_nonzero (col : list Z) : Z :=
  Z.of_nat (length (filter (λ v, v ≠ 0) col)).

(** [np.random.choice(n, 1)[0]]: [None] stands for the [ValueError] numpy
    raises for [n = 0]; otherwise any position below [n] can come out, here
    the one the generator's draw [draw] designates. *)
Definition random_choice (draw n : nat) : option nat :=
  if decide (n = 0%nat) then None else Some (draw `mod` n)%nat.

End np.

(** ** Players *)

Record Player := mkPlayer { name : string; value : Z; display : string }.

(** [Player.__eq__]: two players are equal if they have the same value. *)
Definition Player_eq (p q : Player) : bool := bool_decide (value p = value q).

Definition player_A : Player := mkPlayer "A" 1 "O".
Definition player_B : Player := mkPlayer "B" 2 "X".

(** ** The game object and the store *)

Definition loc := nat.

Record Game := mkGame {
  board_size : nat * nat;
  state : loc;
  save_history : bool;
  history : list loc;
  last_play : option Z;
  players : list Player;
  players_values : list Z;
  players_gen : py.cycle Player;
  current_player : Player;
  winner_ : option Player
}.

Record World := mkWorld { heap : list np.ndarray; self : Game }.

(** The array a reference points to (references never dangle in Python). *)
Definition deref (h : list np.ndarray) (l : loc) : np.ndarray := default [] (h !! l).

(** The current grid, and the grids of the recorded history. *)
Definition grid (w : World) : np.ndarray := deref (heap w) (state (self w)).
Definition snapshots (w : World) : list np.ndarray := deref (heap w) <$> history (self w).

(** ** Exceptions, and the monad of the methods *)

Inductive exn :=
| IllegalMove     (* ValueError('Selected move is illegal') *)
| NoLegalMoves    (* the ValueError of np.random.choice(0, 1) *)
| IndexError
| StopIteration.

Inductive result (A : Type) :=
| Ok (a : A)
| Raise (e : exn).
Arguments Ok {A} _.
Arguments Raise {A} _.

Definition M (A : Type) : Type := World → result A * World.

Global Instance M_ret : MRet M := λ A a w, (Ok a, w).
Global Instance M_bind : MBind M := λ A B f m w,
  match m w with
  | (Ok a, w') => f a w'
  | (Raise e, w') => (Raise e, w')
  end.

Definition raise {A} (e : exn) : M A := λ w, (Raise e, w).
Definition gets {A} (f : World → A) : M A := λ w, (Ok (f w), w).
Definition modify (f : World → World) : M unit := λ w, (Ok tt, f w).
Definition try_some {A} (e : exn) (o : option A) : M A :=
  match o with
  | Some a => mret a
  | None => raise e
  end.

(** Field updates of [self]. *)
Definition with_self (f : Game → Game) (w : World) : World :=
  mkWorld (heap w) (f (self w)).

Definition set_history (h : list loc) (g : Game) : Game :=
  mkGame (board_size g) (state g) (save_history g) h (last_play g) (players g)
         (players_values g) (players_gen g) (current_player g) (winner_ g).
Definition set_last_play (m : option Z) (g : Game) : Game :=
  mkGame (board_size g) (state g) (save_history g) (history g) m (players g)
         (players_values g) (players_gen g) (current_player g) (winner_ g).
Definition set_players_gen (c : py.cycle Player) (g : Game) : Game :=
  mkGame (board_size g) (state g) (save_history g) (history g) (last_play g) (players g)
         (players_values g) c (current_player g) (winner_ g).
Definition set_current_player (p : Player) (g : Game) : Game :=
  mkGame (board_size g) (state g) (save_history g) (history g) (last_play g) (players g)
         (players_values g) (players_gen g) p (winner_ g).
Definition set_winner_ (p : option Player) (g : Game) : Game :=
  mkGame (board_size g) (state g) (save_history g) (history g) (last_play g) (players g)
         (players_values g) (players_gen g) (current_player g) p.

(** Store operations. *)

(** A new array object holding [a]; its reference is returned. *)
Definition alloc (a : np.ndarray) : M loc :=
  λ w, (Ok (length (heap w)), mkWorld (heap w ++ [a]) (self w)).

(** The array [self.state] refers to. *)
Definition read_state : M np.ndarray := gets grid.

(** In-place update of the array [self.state] refers to. *)
Definition write_state (a : np.ndarray) : M unit :=
  modify (λ w, mkWorld (<[state (self w) := a]> (heap w)) (self w)).

(** [self.state.copy()]. *)
Definition copy_state : M loc := x ← read_state; alloc x.

(** ** [Game.__init__] *)

Definition Game_init (board_size : nat * nat) (save_history : bool) : option World :=
  let state := np.zeros board_size in
  let players := [player_A; player_B] in
  '(first, gen) ← py.next (py.cycle_of players);
  Some (mkWorld [state; state]
          {| board_size := board_size;
             state := 0%nat;
             save_history := save_history;
             history := [1%nat];
             last_play := None;
             players := players;
             players_values := value <$> players;
             players_gen := gen;
             current_player := first;
             winner_ := None |}).

(** ** [Game.winner] *)

Definition winner : M (option Player) := gets (λ w, winner_ (self w)).

(** ** [Game.legal_plays] *)

Definition legal_plays : M (list Z) :=
  win ← winner;
  match win with
  | None =>
      x ← read_state;
      values ← gets (λ w, players_values (self w));
      let free_spaces := np.isin_invert x values in
      mret (np.argwhere (np.sum_axis0 free_spaces))
  | Some _ => mret []
  end.

(** ** [Game.play] *)

(** The four spaces inspected after a piece landed at row [i], column [j]. *)
Definition spaces_to_check (x : np.ndarray) (i j : Z) : option (list (list Z)) :=
  vertical ← np.column (py.slice x (Z.max (i - 3) 0) (i + 4)) j;
  horizontal ← (λ r, py.slice r (Z.max (j - 3) 0) (j + 4)) <$> np.row x i;
  Some [vertical; horizontal;
        np.diagonal x (j - i);
        np.diagonal (np.fliplr x) (Z.of_nat (length x) - (i + j))].

(** [pattern in ''.join([str(i) for i in space])]. *)
Definition space_matches (pattern : string) (space : list Z) : bool :=
  py.str_in pattern (py.join "" (py.str <$> space)).

Definition play (move : option Z) (draw : nat) : M unit :=
  legal ← legal_plays;
  selected_move ←
    match move with
    | Some m =>
        if bool_decide (m ∈ legal) then mret m else raise IllegalMove
    | None =>
        k ← try_some NoLegalMoves (np.random_choice draw (length legal));
        try_some IndexError (legal !! k)
    end;
  (* updates states *)
  x ← read_state;
  rows ← gets (λ w, (board_size (self w)).1);
  col ← try_some IndexError (np.column x selected_move);
  let row_number := Z.of_nat rows - np.count_nonzero col - 1 in
  player ← gets (λ w, current_player (self w));
  x' ← try_some IndexError (np.setitem x row_number selected_move (value player));
  write_state x';;
  modify (with_self (set_last_play (Some selected_move)));;
  keep ← gets (λ w, save_history (self w));
  snapshot ← copy_state;
  modify (with_self (λ g, set_history (if (keep : bool) then history g ++ [snapshot] else [snapshot]) g));;
  (* check for winner *)
  x ← read_state;
  let pattern := py.join "" (replicate 4 (py.str (value player))) in
  spaces ← try_some IndexError (spaces_to_check x row_number selected_move);
  if existsb (space_matches pattern) spaces
  then modify (with_self (set_winner_ (Some player)))
  else
    gen ← gets (λ w, players_gen (self w));
    '(p, gen') ← try_some StopIteration (py.next gen);
    modify (with_self (set_players_gen gen'));;
    modify (with_self (set_current_player p)).

(** ** Games in progress *)

(** The public operations a driver or a search algorithm calls. *)
Inductive op :=
| op_legal_plays
| op_winner
| op_play (move : option Z) (draw : nat).

(** The world after operation [o]; an exception raised by [play] is caught by
    the caller, the game object stays as the call left it. *)
Definition exec (o : op) (w : World) : World :=
  match o with
  | op_legal_plays => (legal_plays w).2
  | op_winner => (winner w).2
  | op_play move draw => (play move draw w).2
  end.

(** Did operation [o] apply a move? *)
Definition accepted (o : op) (w : World) : bool :=
  match o with
  | op_play move draw =>
      match (play move draw w).1 with
      | Ok _ => true
      | Raise _ => false
      end
  | _ => false
  end.

(** The world after the operations [ops], from first to last. *)
Definition run (ops : list op) (w : World) : World := foldl (λ w o, exec o w) w ops.

(** [reaches shape keep n w]: [w] is the world of a game created by
    [Game(shape, keep)] after some operations, [n] of which applied a move. *)
Inductive reaches (shape : nat * nat) (keep : bool) : nat → World → Prop :=
| reaches_init w :
    Game_init shape keep = Some w → reaches shape keep 0 w
| reaches_step n w o :
    reaches shape keep n w →
    reaches shape keep (if accepted o w then S n else n) (exec o w).

(** The worlds of all games in progress. *)
Definition reachable (w : World) : Prop := ∃ shape keep n, reaches shape keep n w.

(** The world of a new game ([Game_init] never fails, see [Game_init_eq]). *)
Definition new_game (shape : nat * nat) (keep : bool) : World :=
  default (mkWorld [] (mkGame shape 0%nat keep [] None [] [] (py.cycle_of []) player_A None))
          (Game_init shape keep).

(** The player who is not [p]. *)
Definition other (p : Player) : Player :=
  if Player_eq p player_A then player_B else player_A.

(** ** [Game.show_board] *)

(** [l[i]] for a Python list: the index is normalised as for an array axis,
    [None] stands for [IndexError]. *)
Definition list_getitem {A} (l : list A) (i : Z) : option A :=
  k ← np.index (length l) i; l !! k.

(** The line-feed character, and the text ["\n"]. *)
Definition newline : string := String (ascii_of_nat 10) EmptyString.

(** The markers appended to [elements] for one element of a line: the
    display of every player whose value the element is, or the no-player
    marker when the element is not a player's value. *)
Definition show_element (values : list Z) (players : list Player) (element : Z)
  : list string :=
  if bool_decide (element ∈ values)
  then display <$> filter (λ player, element = value player) players
  else ["."].

(** The result is the returned value and the texts given to [print], in
    the order of the calls. *)
Definition show_board (state_number : Z) (return_string : bool)
  : M (option string * list string) :=
  hist ← gets (λ w, history (self w));
  shown ← try_some IndexError (list_getitem hist state_number);
  x ← gets (λ w, deref (heap w) shown);
  values ← gets (λ w, players_values (self w));
  registered ← gets (λ w, players (self w));
  let lines :=
    (λ line : list Z, py.join "|" (line ≫= show_element values registered)) <$> x in
  let board_representation := py.join newline lines in
  if return_string then mret (Some board_representation, [])
  else mret (None, [board_representation]).

(** ** [main] *)

(** One turn of the loop of [main], after the test of [legal_plays()]: a
    random move, then the texts printed (the round number is incremented
    before it is printed). *)
Definition main_round (n_round : nat) (draw : nat) : M (list string) :=
  play None draw;;
  win ← winner;
  shown ← show_board (-1) false;
  mret (["------"; "ROUND NUMBER " +:+ pretty (Z.of_nat (S n_round))]
        ++ match win with
           | Some p => ["WINNER " +:+ display p]
           | None => []
           end
        ++ shown.2).

(** The [while game.legal_plays():] loop of [main].  [draws k] is the draw of
    the generator in round [k]; [out] collects the texts printed so far.
    [None] is returned when [fuel] turns do not end the loop. *)
Fixpoint main_loop (fuel : nat) (draws : nat → nat) (n_round : nat) (out : list string)
    (w : World) : option (result (list string) * World) :=
  match fuel with
  | O => None
  | S fuel' =>
      match legal_plays w with
      | (Raise e, w1) => Some (Raise e, w1)
      | (Ok [], w1) => Some (Ok out, w1)
      | (Ok (_ :: _), w1) =>
          match main_round n_round (draws n_round) w1 with
          | (Raise e, w2) => Some (Raise e, w2)
          | (Ok printed, w2) => main_loop fuel' draws (S n_round) (out ++ printed) w2
          end
      end
  end.

(** [main()]: a 6x7 game with history, shown once, then played with random
    moves until no move is legal. *)
Definition main (fuel : nat) (draws : nat → nat) : option (result (list string) * World) :=
  match show_board (-1) false (new_game (6, 7)%nat true) with
  | (Raise e, w) => Some (Raise e, w)
  | (Ok shown, w) => main_loop fuel draws 0 shown.2 w
  end.

(** * Notions used to state the properties *)

(** The cell at row [r], column [c] (positions from the top-left corner). *)
Definition cell (x : np.ndarray) (r c : nat) : option Z := x !! r ≫= (.!! c).

(** Column [c] as a list, top to bottom. *)
Definition col_of (x : np.ndarray) (c : nat) : list Z :=
  (λ r : list Z, default 0 (r !! c)) <$> x.

(** All rows have [n] cells. *)
Definition rect (n : nat) (x : np.ndarray) : Prop := Forall (λ r, length r = n) x.

(** Number of non-zero entries, number of occupied cells of a grid. *)
Definition nz (col : list Z) : nat := length (filter (λ v, v ≠ 0) col).
Definition occupied (x : np.ndarray) : nat := sum_list (nz <$> x).

(** Pieces are stacked from the bottom of a column: empty cells on top,
    occupied cells below. *)
Definition stacked (col : list Z) : Prop :=
  ∃ k rest, col = replicate k 0 ++ rest ∧ Forall (λ v, v ≠ 0) rest.

(** [x] with the cell at row [r], column [c] set to [v]. *)
Definition set_cell (x : np.ndarray) (r c : nat) (v : Z) : np.ndarray :=
  <[r := <[c := v]> (default [] (x !! r))]> x.

(** The list [legal_plays] returns in world [w]. *)
Definition legal_list (w : World) : list Z :=
  match winner_ (self w) with
  | None => np.argwhere (np.sum_axis0 (np.isin_invert (grid w) (players_values (self w))))
  | Some _ => []
  end.

(** The invariant of the worlds a game goes through: the state array and
    the arrays of the history are distinct objects of the store; the grid has
    the shape given at construction, holds only 0, 1 and 2, and its columns
    are stacked; the two players are A and B, and the cycle iterator stands
    after the current player. *)
Record wf (w : World) : Prop := mk_wf {
  wf_state : (state (self w) < length (heap w))%nat;
  wf_history :
    Forall (λ l, (l < length (heap w))%nat ∧ l ≠ state (self w)) (history (self w));
  wf_rows : length (grid w) = (board_size (self w)).1;
  wf_rect : rect (board_size (self w)).2 (grid w);
  wf_cells : Forall (Forall (λ v, v = 0 ∨ v = 1 ∨ v = 2)) (grid w);
  wf_stacked : ∀ c, (c < (board_size (self w)).2)%nat → stacked (col_of (grid w) c);
  wf_players : players (self w) = [player_A; player_B];
  wf_values : players_values (self w) = [1; 2];
  wf_turn :
    (current_player (self w) = player_A ∧
     players_gen (self w) = py.mkCycle [player_A; player_B] 1) ∨
    (current_player (self w) = player_B ∧
     players_gen (self w) = py.mkCycle [player_A; player_B] 0);
  wf_winner :
    winner_ (self w) = None ∨ winner_ (self w) = Some (current_player (self w))
}.

(** The move [play] settles on, or the exception it raises before touching
    the state. *)
Definition selected (move : option Z) (draw : nat) (legal : list Z) : exn + Z :=
  match move with
  | Some m => if bool_decide (m ∈ legal) then inr m else inl IllegalMove
  | None =>
      match legal with
      | [] => inl NoLegalMoves
      | _ => inr (default 0 (legal !! (draw `mod` length legal)%nat))
      end
  end.

(** The row a piece dropped into column [c] lands on. *)
Definition landing (w : World) (c : nat) : nat :=
  ((board_size (self w)).1 - nz (col_of (grid w) c) - 1)%nat.

(** [''.join([str(v)] * 4)]. *)
Definition pattern (v : Z) : string := py.join "" (replicate 4 (py.str v)).

(** The outcome of the check for a winner on grid [x] after value [v] was
    written at row [i], column [j]. *)
Definition wins (x : np.ndarray) (i j : nat) (v : Z) : bool :=
  match spaces_to_check x (Z.of_nat i) (Z.of_nat j) with
  | Some spaces => existsb (space_matches (pattern v)) spaces
  | None => false
  end.

(** The world after an accepted play into column [c]. *)
Definition play_result (w : World) (c : nat) : World :=
  let g := self w in
  let player := current_player g in
  let x' := set_cell (grid w) (landing w c) c (value player) in
  let snapshot := length (heap w) in
  let won := wins x' (landing w c) c (value player) in
  let gen := players_gen g in
  mkWorld (<[state g := x']> (heap w) ++ [x'])
    {| board_size := board_size g;
       state := state g;
       save_history := save_history g;
       history := if save_history g then history g ++ [snapshot] else [snapshot];
       last_play := Some (Z.of_nat c);
       players := players g;
       players_values := players_values g;
       players_gen :=
         if won then gen
         else py.mkCycle (py.saved gen) (S (py.pos gen) `mod` length (py.saved gen))%nat;
       current_player :=
         if won then player else default player (py.saved gen !! py.pos gen);
       winner_ := if won then Some player else winner_ g |}.

(** Player A drops four pieces into column 3, player B three into column 0. *)
Definition vertical_win : list op :=
  [op_play (Some 3) 0; op_play (Some 0) 0; op_play (Some 3) 0; op_play (Some 0) 0;
   op_play (Some 3) 0; op_play (Some 0) 0; op_play (Some 3) 0].

(** C9, as stated: [last_play] records the column and the row of the placed
    piece, that is, both can be read back from its value, however the pair
    is encoded. *)
Definition last_play_records_pair : Prop :=
  ∃ decode : option Z → Z * Z,
    ∀ w move draw w',
      reachable w → play move draw w = (Ok tt, w') →
      ∃ r c : nat,
        decode (last_play (self w')) = (Z.of_nat c, Z.of_nat r) ∧
        cell (grid w) r c = Some 0 ∧
        cell (grid w') r c = Some (value (current_player (self w))).

(** The cell at integer coordinates, [None] outside the grid. *)
Definition cellZ (x : np.ndarray) (r c : Z) : option Z :=
  if decide (0 ≤ r ∧ 0 ≤ c) then cell x (Z.to_nat r) (Z.to_nat c) else None.

(** The four cells starting at [(r, c)] in direction [(dr, dc)] all hold [v]. *)
Definition four (x : np.ndarray) (v : Z) (r c dr dc : Z) : bool :=
  forallb (λ k, bool_decide (cellZ x (r + k * dr) (c + k * dc) = Some v)) (seqZ 0 4).

(** Four consecutive cells of value [v] on one of four lines: the segment of
    column [j] from row [i - 3] to row [i + 3], the segment of row [i] from
    column [j - 3] to column [j + 3], the diagonal through [(i, j)], and the
    anti-diagonal of the cells whose coordinates add up to [anti]. *)
Definition lines (x : np.ndarray) (v : Z) (i j anti : Z) : bool :=
  existsb (λ r0, four x v r0 j 1 0) (seqZ (i - 3) 4) ||
  existsb (λ c0, four x v i c0 0 1) (seqZ (j - 3) 4) ||
  existsb (λ r0, four x v r0 (r0 + (j - i)) 1 1) (seqZ 0 (Z.of_nat (length x))) ||
  existsb (λ r0, four x v r0 (anti - r0) 1 (-1)) (seqZ 0 (Z.of_nat (length x))).

(** One of the four lines through [(i, j)] holds four consecutive cells of
    value [v]. *)
Definition line_win (x : np.ndarray) (v : Z) (i j : Z) : bool :=
  lines x v i j (i + j).

(** On a 6x6 board: A plays columns 0, 1, 3, 2, 5, 3 and B plays columns
    1, 2, 2, 3, 3 in between; A's last piece lands at row 2 of column 3 and
    completes the anti-diagonal (5,0), (4,1), (3,2), (2,3). *)
Definition antidiagonal_game : list op :=
  [op_play (Some 0) 0; op_play (Some 1) 0; op_play (Some 1) 0; op_play (Some 2) 0;
   op_play (Some 3) 0; op_play (Some 2) 0; op_play (Some 2) 0; op_play (Some 3) 0;
   op_play (Some 5) 0; op_play (Some 3) 0].

(** The character [str] prints for a cell value. *)
Definition digit (v : Z) : ascii :=
  match v with
  | 0 => "0"
  | 1 => "1"
  | _ => "2"
  end%char.

(** The text of a space, one character per cell. *)
Definition encode (l : list Z) : string :=
  foldr (λ v s, String (digit v) s) EmptyString l.

(** The values a cell can hold: empty, player A, player B. *)
Definition is_cell (v : Z) : Prop := v = 0 ∨ v = 1 ∨ v = 2.

(** [p] occurs in [l] at position [k]. *)
Definition occurs_at (p l : list Z) (k : nat) : Prop := ∃ rest, drop k l = p ++ rest.

(** Four consecutive cells, as a proposition. *)
Definition fourP (x : np.ndarray) (v : Z) (r c dr dc : Z) : Prop :=
  ∀ d : nat, (d < 4)%nat → cellZ x (r + Z.of_nat d * dr) (c + Z.of_nat d * dc) = Some v.

(** A space holds four consecutive cells of value [v]. *)
Definition run4 (v : Z) (space : list Z) : Prop :=
  ∃ k, ∀ d, (d < 4)%nat → space !! (k + d)%nat = Some v.

(** The marker of a cell in the text of a board. *)
Definition marker (v : Z) : string :=
  match v with
  | 0 => "."
  | 1 => "O"
  | _ => "X"
  end.

(** The text of a row of a grid. *)
Definition row_text (row : list Z) : string := py.join "|" (marker <$> row).

(** The text of a grid: the markers of a row separated by bars, the rows
    separated by line feeds. *)
Definition board_text (x : np.ndarray) : string :=
  py.join newline (row_text <$> x).

(** Number of cells of value [v] in a grid; number of empty cells. *)
Definition count_value (v : Z) (x : np.ndarray) : nat :=
  sum_list ((λ row : list Z, length (filter (λ u, u = v) row)) <$> x).
Definition free (x : np.ndarray) : nat := count_value 0 x.

(** The four directions of a line: down, right, down-right, down-left. *)
Definition directions : list (Z * Z) := [(1, 0); (0, 1); (1, 1); (1, -1)].

(** The value and the output of [show_board] for a text [t]. *)
Definition shown (b : bool) (t : string) : option string * list string :=
  if b then (Some t, []) else (None, [t]).

(** * Properties *)

(** ** Grids: cells, columns and the gravity invariant *)

Section grid_facts.
Implicit Types (x : np.ndarray) (col row : list Z) (r c k n : nat) (v : Z).

Lemma index_nat n k : (k < n)%nat → np.index n (Z.of_nat k) = Some k.
Proof.
  intros. unfold np.index. rewrite decide_True by lia. by rewrite Nat2Z.id.
Qed.

Lemma nz_count col : np.count_nonzero col = Z.of_nat (nz col).
Proof. done. Qed.

Lemma cell_lookup x r c row : x !! r = Some row → cell x r c = row !! c.
Proof. unfold cell. by intros ->. Qed.

Lemma cell_Some x r c v :
  cell x r c = Some v ↔ ∃ row, x !! r = Some row ∧ row !! c = Some v.
Proof.
  unfold cell. destruct (x !! r) as [row|]; simpl; naive_solver.
Qed.

Lemma rect_lookup n x r row : rect n x → x !! r = Some row → length row = n.
Proof. intros Hx Hr. by eapply (Forall_lookup_1 _ _ _ _ Hx Hr). Qed.

Lemma rect_ncols n x : rect n x → x ≠ [] → np.ncols x = n.
Proof. destruct x; [done|]. intros Hx _. by inversion Hx. Qed.

Lemma col_of_length x c : length (col_of x c) = length x.
Proof. apply length_fmap. Qed.

Lemma col_of_lookup x c r :
  col_of x c !! r = (λ row : list Z, default 0 (row !! c)) <$> x !! r.
Proof. apply list_lookup_fmap. Qed.

Lemma col_of_cell n x c r v :
  rect n x → (c < n)%nat → col_of x c !! r = Some v ↔ cell x r c = Some v.
Proof.
  intros Hx Hc. rewrite col_of_lookup, cell_Some.
  destruct (x !! r) as [row|] eqn:Hr; simpl; [|naive_solver].
  pose proof (rect_lookup _ _ _ _ Hx Hr) as Hlen.
  destruct (lookup_lt_is_Some_2 row c) as [u Hu]; [lia|].
  rewrite Hu. simpl. naive_solver.
Qed.

Lemma column_nat n x c :
  rect n x → (c < n)%nat → np.column x (Z.of_nat c) = Some (col_of x c).
Proof.
  intros Hx Hc. unfold np.column. apply mapM_Some.
  unfold col_of. apply Forall2_fmap_r, Forall_Forall2_diag.
  eapply Forall_impl; [exact Hx|]. intros row Hlen. simpl in Hlen.
  unfold np.getitem1. rewrite index_nat by lia. simpl.
  destruct (lookup_lt_is_Some_2 row c) as [u Hu]; [lia|]. by rewrite Hu.
Qed.

Lemma nz_replicate_0 k : nz (replicate k 0) = 0%nat.
Proof. unfold nz. induction k as [|k IH]; [done|]. simpl. by rewrite filter_cons_False by naive_solver. Qed.

Lemma nz_all col : Forall (λ v, v ≠ 0) col → nz col = length col.
Proof.
  unfold nz. induction 1 as [|v col Hv _ IH]; [done|].
  rewrite filter_cons_True by done. simpl. by rewrite IH.
Qed.

Lemma nz_app col1 col2 : nz (col1 ++ col2) = (nz col1 + nz col2)%nat.
Proof. unfold nz. by rewrite filter_app, length_app. Qed.

Lemma nz_insert col k v :
  col !! k = Some 0 → v ≠ 0 → nz (<[k := v]> col) = S (nz col).
Proof.
  revert k. induction col as [|u col IH]; intros [|k] Hk Hv; simplify_eq/=.
  - unfold nz. rewrite filter_cons_True by done. by rewrite filter_cons_False by naive_solver.
  - unfold nz in *. destruct (decide (u ≠ 0)).
    + rewrite !filter_cons_True by done. simpl. by rewrite IH.
    + rewrite !filter_cons_False by done. by rewrite IH.
Qed.

Lemma stacked_replicate k : stacked (replicate k 0).
Proof. exists k, []. by rewrite app_nil_r. Qed.

(** The landing position in a stacked column that has an empty cell. *)
Lemma stacked_landing col :
  stacked col → 0 ∈ col →
  (nz col < length col)%nat ∧ col !! (length col - nz col - 1)%nat = Some 0.
Proof.
  intros (k & rest & -> & Hrest) Hin.
  rewrite nz_app, nz_replicate_0, (nz_all rest), length_app, length_replicate by done.
  assert (k ≠ 0)%nat as Hk.
  { intros ->. simpl in Hin. rewrite Forall_forall in Hrest. by apply (Hrest 0). }
  split; [lia|]. rewrite lookup_app_l by (rewrite length_replicate; lia).
  apply lookup_replicate_2. lia.
Qed.

(** In a stacked column the cells above the landing position are empty and
    the cells below are occupied. *)
Lemma stacked_lookup col k v :
  stacked col → col !! k = Some v →
  v = 0 ↔ (k < length col - nz col)%nat.
Proof.
  intros (n & rest & -> & Hrest).
  rewrite nz_app, nz_replicate_0, (nz_all rest), length_app, length_replicate by done.
  destruct (decide (k < n)%nat) as [Hk|Hk].
  - rewrite lookup_app_l by (rewrite length_replicate; lia).
    intros [-> _]%lookup_replicate. split; [lia|done].
  - rewrite lookup_app_r by (rewrite length_replicate; lia).
    intros Hv. rewrite Forall_forall in Hrest.
    apply list_elem_of_lookup_2, Hrest in Hv. split; [done|lia].
Qed.

Lemma stacked_insert col v :
  stacked col → 0 ∈ col → v ≠ 0 →
  stacked (<[(length col - nz col - 1)%nat := v]> col).
Proof.
  intros (k & rest & -> & Hrest) Hin Hv.
  rewrite nz_app, nz_replicate_0, (nz_all rest), length_app, length_replicate by done.
  assert (k ≠ 0)%nat as Hk.
  { intros ->. simpl in Hin. rewrite Forall_forall in Hrest. by apply (Hrest 0). }
  destruct k as [|k]; [done|]. clear Hk Hin.
  exists k, (v :: rest). split; [|by constructor].
  replace (S k + length rest - (0 + length rest) - 1)%nat with k by lia.
  rewrite insert_app_l by (rewrite length_replicate; lia).
  replace (S k) with (k + 1)%nat by lia.
  rewrite replicate_add, insert_app_r_alt by (rewrite length_replicate; lia).
  rewrite length_replicate, Nat.sub_diag. simpl. by rewrite <-app_assoc.
Qed.

(** Writing one cell: what the cells, the columns and the shape become. *)
Lemma set_cell_length x r c v : length (set_cell x r c v) = length x.
Proof. apply length_insert. Qed.

Lemma set_cell_rect n x r c v : rect n x → rect n (set_cell x r c v).
Proof.
  intros Hx. unfold set_cell. destruct (x !! r) as [row|] eqn:Hr; simpl.
  - apply Forall_insert; [done|]. rewrite length_insert. by eapply rect_lookup.
  - by rewrite list_insert_ge by (by apply lookup_ge_None).
Qed.

Lemma set_cell_same x r c v row :
  x !! r = Some row → (c < length row)%nat → cell (set_cell x r c v) r c = Some v.
Proof.
  intros Hr Hc. unfold cell, set_cell. rewrite Hr. simpl.
  rewrite list_lookup_insert_eq by by eapply lookup_lt_Some.
  simpl. by rewrite list_lookup_insert_eq.
Qed.

Lemma set_cell_other x r c v r' c' :
  (r', c') ≠ (r, c) → cell (set_cell x r c v) r' c' = cell x r' c'.
Proof.
  intros Hne. unfold cell, set_cell.
  destruct (decide (r' = r)) as [->|Hr]; [|by rewrite list_lookup_insert_ne].
  destruct (x !! r) as [row|] eqn:Hrow; simpl.
  - rewrite list_lookup_insert_eq by by eapply lookup_lt_Some.
    simpl. rewrite list_lookup_insert_ne by congruence. done.
  - rewrite list_insert_ge by (by apply lookup_ge_None). by rewrite Hrow.
Qed.

Lemma col_of_set_cell_same x r c v row :
  x !! r = Some row → (c < length row)%nat →
  col_of (set_cell x r c v) c = <[r := v]> (col_of x c).
Proof.
  intros Hr Hc. unfold col_of, set_cell. rewrite Hr. simpl.
  rewrite list_fmap_insert. simpl. by rewrite list_lookup_insert_eq.
Qed.

Lemma col_of_set_cell_other x r c v c' :
  c' ≠ c → col_of (set_cell x r c v) c' = col_of x c'.
Proof.
  intros Hc. unfold col_of, set_cell. rewrite list_fmap_insert. simpl.
  rewrite list_lookup_insert_ne by done.
  destruct (x !! r) as [row|] eqn:Hr; simpl.
  - apply list_insert_id. by rewrite list_lookup_fmap, Hr.
  - apply list_insert_ge. rewrite length_fmap. by apply lookup_ge_None.
Qed.

Lemma occupied_set_cell x r c v row :
  x !! r = Some row → row !! c = Some 0 → v ≠ 0 →
  occupied (set_cell x r c v) = S (occupied x).
Proof.
  intros Hr Hc Hv. unfold occupied, set_cell. rewrite Hr. simpl.
  revert r Hr. induction x as [|row' x IH]; intros [|r] Hr; simplify_eq/=.
  - by rewrite (nz_insert _ _ _ Hc Hv).
  - rewrite (IH _ Hr). lia.
Qed.

End grid_facts.

(** ** [legal_plays] as a function of the world *)

Lemma legal_plays_run w : legal_plays w = (Ok (legal_list w), w).
Proof.
  unfold legal_plays, legal_list, winner, mbind, M_bind, gets, read_state; simpl.
  by destruct (winner_ (self w)).
Qed.

Section legal_facts.
Implicit Types (x : np.ndarray) (values : list Z).

Lemma sum_axis0_length x values :
  length (np.sum_axis0 (np.isin_invert x values)) = np.ncols x.
Proof.
  unfold np.sum_axis0. rewrite length_fmap, length_seq.
  destruct x as [|r x]; [done|]. simpl. by rewrite length_fmap.
Qed.

Lemma sum_axis0_lookup x values (c : nat) :
  (c < np.ncols x)%nat →
  np.sum_axis0 (np.isin_invert x values) !! c ≠ Some 0 ↔
  ∃ row v, row ∈ x ∧ row !! c = Some v ∧ v ∉ values.
Proof.
  intros Hc. unfold np.sum_axis0. rewrite list_lookup_fmap.
  rewrite lookup_seq_lt; last first.
  { destruct x; simpl in *; [lia|]. by rewrite length_fmap. }
  simpl. set (b := np.isin_invert x values).
  set (l := filter _ b). split.
  - intros Hne. destruct l as [|r l'] eqn:Hl; [done|].
    assert (r ∈ l) as Hr by (rewrite Hl; left).
    unfold l in Hr. apply list_elem_of_filter in Hr as [Hrc Hr].
    unfold b, np.isin_invert in Hr. apply list_elem_of_fmap in Hr as (row & -> & Hrow).
    rewrite list_lookup_fmap in Hrc.
    destruct (row !! c) as [v|] eqn:Hv; simplify_eq/=.
    exists row, v. split_and!; [done..|].
    apply negb_true_iff, bool_decide_eq_false in Hrc. done.
  - intros (row & v & Hrow & Hv & Hnin) Heq.
    assert (((λ v, negb (bool_decide (v ∈ values))) <$> row) ∈ l) as Hin.
    { unfold l. apply list_elem_of_filter. split.
      - rewrite list_lookup_fmap, Hv. simpl. by rewrite bool_decide_eq_false_2.
      - unfold b, np.isin_invert. by apply (list_elem_of_fmap_2 _ x row). }
    destruct l; [by apply elem_of_nil in Hin|]. simplify_eq/=.
Qed.

Lemma argwhere_elem_of (v : list Z) j :
  j ∈ np.argwhere v ↔ ∃ c : nat, j = Z.of_nat c ∧ (c < length v)%nat ∧ v !! c ≠ Some 0.
Proof.
  unfold np.argwhere. rewrite list_elem_of_fmap. split.
  - intros (c & -> & Hc). apply list_elem_of_filter in Hc as [Hne Hc].
    apply elem_of_seq in Hc. exists c. split_and!; [done|lia|done].
  - intros (c & -> & Hc & Hne). exists c. split; [done|].
    apply list_elem_of_filter. split; [done|]. apply elem_of_seq. lia.
Qed.

Lemma StronglySorted_filter_seq (P : nat → Prop) `{!∀ k, Decision (P k)} s n :
  StronglySorted lt (filter P (seq s n)).
Proof.
  revert s. induction n as [|n IH]; intros s; simpl; [constructor|].
  destruct (decide (P s)).
  - rewrite filter_cons_True by done. constructor; [apply IH|].
    apply Forall_forall. intros k [_ Hk%elem_of_seq]%list_elem_of_filter. lia.
  - rewrite filter_cons_False by done. apply IH.
Qed.

Lemma argwhere_sorted (v : list Z) : StronglySorted Z.lt (np.argwhere v).
Proof.
  unfold np.argwhere. eapply StronglySorted_fmap with (R1 := lt).
  { intros a b. lia. }
  apply StronglySorted_filter_seq.
Qed.

Lemma argwhere_free x values j :
  j ∈ np.argwhere (np.sum_axis0 (np.isin_invert x values)) ↔
  ∃ c : nat, j = Z.of_nat c ∧ (c < np.ncols x)%nat ∧
    ∃ row v, row ∈ x ∧ row !! c = Some v ∧ v ∉ values.
Proof.
  rewrite argwhere_elem_of. rewrite sum_axis0_length. split.
  - intros (c & -> & Hc & Hne). exists c. split_and!; [done..|].
    by apply sum_axis0_lookup.
  - intros (c & -> & Hc & Hex). exists c. split_and!; [done..|].
    by apply sum_axis0_lookup.
Qed.

End legal_facts.

(** ** [play] as a function of the world *)

Section play_facts.
Implicit Types (w : World) (x : np.ndarray) (c r : nat).

Lemma play_refused w move draw e :
  selected move draw (legal_list w) = inl e → play move draw w = (Raise e, w).
Proof.
  unfold play, selected. unfold mbind at 1, M_bind at 1.
  rewrite legal_plays_run. intros Hsel.
  destruct move as [m|].
  - case_bool_decide; [done|]. by simplify_eq.
  - destruct (legal_list w) as [|j l]; [|done]. by simplify_eq.
Qed.

Lemma selected_legal move draw legal j :
  selected move draw legal = inr j → j ∈ legal.
Proof.
  unfold selected. destruct move as [m|].
  - case_bool_decide; intros; by simplify_eq.
  - destruct legal as [|j' l] eqn:Hl; [done|]. rewrite <-Hl. intros Hj'.
    apply (inj inr) in Hj'. subst j.
    assert (draw `mod` length legal < length legal)%nat as Hlt.
    { apply Nat.mod_upper_bound. by rewrite Hl. }
    destruct (lookup_lt_is_Some_2 _ _ Hlt) as [j Hj]. rewrite Hj. simpl.
    by eapply list_elem_of_lookup_2.
Qed.

(** A legal column of a well-formed world is a column of the board that has
    an empty cell. *)
Lemma legal_column w j :
  wf w → j ∈ legal_list w →
  ∃ c, j = Z.of_nat c ∧ (c < (board_size (self w)).2)%nat ∧ 0 ∈ col_of (grid w) c.
Proof.
  intros Hw. unfold legal_list. destruct (winner_ (self w)); [by intros ?%elem_of_nil|].
  rewrite argwhere_free. intros (c & -> & Hc & row & v & Hrow & Hv & Hnin).
  exists c. split; [done|].
  assert (grid w ≠ []) as Hne by (by intros Hnil; rewrite Hnil in Hrow; apply elem_of_nil in Hrow).
  rewrite (rect_ncols _ _ (wf_rect _ Hw) Hne) in Hc. split; [done|].
  apply list_elem_of_lookup in Hrow as [r Hr].
  assert (v = 0) as ->.
  { pose proof (wf_cells _ Hw) as Hcells.
    pose proof (Forall_lookup_1 _ _ _ _ Hcells Hr) as Hrowc.
    pose proof (Forall_lookup_1 _ _ _ _ Hrowc Hv) as Hv3. simpl in Hv3.
    rewrite (wf_values _ Hw) in Hnin.
    destruct Hv3 as [-> | [-> | ->]]; [done|..]; exfalso; apply Hnin; repeat constructor. }
  apply (list_elem_of_lookup_2 _ r). rewrite col_of_lookup, Hr. simpl. by rewrite Hv.
Qed.

Lemma rect_slice {n} x a b : rect n x → rect n (py.slice x a b).
Proof. intros Hx. unfold py.slice. by apply Forall_take, Forall_drop. Qed.

Lemma spaces_to_check_nat n x r c row :
  rect n x → x !! r = Some row → (c < n)%nat →
  spaces_to_check x (Z.of_nat r) (Z.of_nat c) =
    Some [col_of (py.slice x (Z.max (Z.of_nat r - 3) 0) (Z.of_nat r + 4)) c;
          py.slice row (Z.max (Z.of_nat c - 3) 0) (Z.of_nat c + 4);
          np.diagonal x (Z.of_nat c - Z.of_nat r);
          np.diagonal (np.fliplr x) (Z.of_nat (length x) - (Z.of_nat r + Z.of_nat c))].
Proof.
  intros Hx Hr Hc. unfold spaces_to_check.
  rewrite (column_nat n) by (by try apply rect_slice). simpl.
  unfold np.row. rewrite index_nat by (by eapply lookup_lt_Some). simpl.
  by rewrite Hr.
Qed.

Lemma play_accepted w move draw j :
  wf w → selected move draw (legal_list w) = inr j →
  ∃ c, j = Z.of_nat c ∧ (c < (board_size (self w)).2)%nat ∧
       0 ∈ col_of (grid w) c ∧
       play move draw w = (Ok tt, play_result w c).
Proof.
  intros Hw Hsel.
  pose proof (selected_legal _ _ _ _ Hsel) as Hj.
  destruct (legal_column _ _ Hw Hj) as (c & -> & Hc & H0).
  exists c. split_and!; [done..|].
  pose proof (wf_rect _ Hw) as Hrect. pose proof (wf_rows _ Hw) as Hrows.
  destruct (stacked_landing _ (wf_stacked _ Hw c Hc) H0) as [Hnz Hland].
  rewrite col_of_length, Hrows in Hnz, Hland. fold (landing w c) in Hland.
  assert (landing w c < length (grid w))%nat as Hlt by (unfold landing; lia).
  destruct (lookup_lt_is_Some_2 _ _ Hlt) as [row Hrow].
  pose proof (rect_lookup _ _ _ _ Hrect Hrow) as Hlen.
  unfold play. unfold mbind at 1, M_bind at 1. rewrite legal_plays_run.
  assert ((match move with
           | Some m => if bool_decide (m ∈ legal_list w) then mret m else raise IllegalMove
           | None => k ← try_some NoLegalMoves (np.random_choice draw (length (legal_list w)));
                     try_some IndexError (legal_list w !! k)
           end) w = (Ok (Z.of_nat c), w)) as Hselect.
  { unfold selected in Hsel. destruct move as [m|].
    - case_bool_decide; by simplify_eq.
    - destruct (legal_list w) as [|j' l] eqn:Hl; [done|]. rewrite <-Hl in *.
      apply (inj inr) in Hsel.
      unfold np.random_choice. rewrite decide_False by (by rewrite Hl).
      unfold mbind, M_bind; simpl.
      assert (draw `mod` length (legal_list w) < length (legal_list w))%nat as Hk.
      { apply Nat.mod_upper_bound. by rewrite Hl. }
      destruct (lookup_lt_is_Some_2 _ _ Hk) as [j Hjk]. rewrite Hjk in Hsel |- *.
      simpl in *. by subst. }
  unfold mbind at 1, M_bind at 1. rewrite Hselect.
  unfold mbind, M_bind, read_state, copy_state, write_state, alloc, gets, modify, try_some.
  simpl. rewrite (column_nat _ _ _ Hrect Hc). simpl.
  rewrite nz_count.
  replace (Z.of_nat (board_size (self w)).1 - Z.of_nat (nz (col_of (grid w) c)) - 1)
    with (Z.of_nat (landing w c)) by (unfold landing; lia).
  assert (np.setitem (grid w) (Z.of_nat (landing w c)) (Z.of_nat c)
            (value (current_player (self w)))
          = Some (set_cell (grid w) (landing w c) c (value (current_player (self w)))))
    as ->.
  { unfold np.setitem, set_cell. rewrite index_nat by done. simpl. rewrite Hrow. simpl.
    by rewrite index_nat by lia. }
  set (x' := set_cell (grid w) (landing w c) c (value (current_player (self w)))).
  simpl. unfold grid, with_self, deref. cbn [heap self state set_last_play set_history].
  rewrite lookup_app_l by (rewrite length_insert; apply (wf_state _ Hw)).
  rewrite list_lookup_insert_eq by apply (wf_state _ Hw). cbn [default].
  rewrite list_lookup_insert_eq by apply (wf_state _ Hw). cbn [default id].
  assert (x' !! landing w c = Some (<[c := value (current_player (self w))]> row)) as Hrow'.
  { unfold x', set_cell. rewrite Hrow. simpl. by rewrite list_lookup_insert_eq. }
  assert (rect (board_size (self w)).2 x') as Hrect' by (by apply set_cell_rect).
  rewrite (spaces_to_check_nat _ x' _ _ _ Hrect' Hrow' Hc).
  unfold play_result, wins. cbv zeta. fold x'.
  rewrite (spaces_to_check_nat _ x' _ _ _ Hrect' Hrow' Hc).
  unfold mret, M_ret, raise, pattern.
  rewrite length_insert.
  destruct (existsb _ _) eqn:Hwin; [done|].
  destruct (wf_turn _ Hw) as [[Hcur Hgen]|[Hcur Hgen]]; simpl; rewrite Hgen; simpl; done.
Qed.

End play_facts.

(** ** The invariant holds initially and is kept by every call *)

Section invariant.
Implicit Types (w : World) (c : nat).

Lemma Game_init_eq shape keep :
  Game_init shape keep =
    Some (mkWorld [np.zeros shape; np.zeros shape]
            (mkGame shape 0%nat keep [1%nat] None [player_A; player_B] [1; 2]
                    (py.mkCycle [player_A; player_B] 1) player_A None)).
Proof. done. Qed.

Lemma col_of_zeros shape c : col_of (np.zeros shape) c = replicate shape.1 0.
Proof.
  unfold col_of, np.zeros. rewrite fmap_replicate. f_equal.
  destruct (replicate shape.2 0 !! c) as [v|] eqn:Hv; [|done].
  by apply lookup_replicate in Hv as [-> _].
Qed.

Lemma Game_init_wf shape keep w : Game_init shape keep = Some w → wf w.
Proof.
  rewrite Game_init_eq. intros [= <-].
  set (w0 := mkWorld _ _). assert (grid w0 = np.zeros shape) as Hg by done.
  split; rewrite ?Hg; cbn [w0 heap self state history board_size players
    players_values current_player players_gen winner_ length].
  - lia.
  - repeat constructor; lia.
  - apply length_replicate.
  - apply Forall_replicate, length_replicate.
  - apply Forall_replicate, Forall_replicate. by left.
  - intros c _. rewrite col_of_zeros. apply stacked_replicate.
  - done.
  - done.
  - by left.
  - by left.
Qed.

Lemma legal_no_winner w j : j ∈ legal_list w → winner_ (self w) = None.
Proof.
  unfold legal_list. destruct (winner_ (self w)); [by intros ?%elem_of_nil|done].
Qed.

Lemma grid_play_result w c :
  wf w →
  grid (play_result w c) =
    set_cell (grid w) (landing w c) c (value (current_player (self w))).
Proof.
  intros Hw. unfold grid at 1, play_result, deref. cbn [heap self state].
  rewrite lookup_app_l by (rewrite length_insert; apply (wf_state _ Hw)).
  by rewrite list_lookup_insert_eq by apply (wf_state _ Hw).
Qed.

Lemma current_value w :
  wf w → value (current_player (self w)) = 1 ∨ value (current_player (self w)) = 2.
Proof. intros Hw. destruct (wf_turn _ Hw) as [[-> _]|[-> _]]; auto. Qed.

Lemma play_result_wf w c :
  wf w → (c < (board_size (self w)).2)%nat → 0 ∈ col_of (grid w) c →
  winner_ (self w) = None →
  wf (play_result w c).
Proof.
  intros Hw Hc H0 Hnone.
  pose proof (wf_rect _ Hw) as Hrect. pose proof (wf_rows _ Hw) as Hrows.
  pose proof (current_value _ Hw) as Hval.
  destruct (stacked_landing _ (wf_stacked _ Hw c Hc) H0) as [Hnz Hland].
  rewrite col_of_length, Hrows in Hnz, Hland. fold (landing w c) in Hland.
  assert (landing w c < length (grid w))%nat as Hlt by (unfold landing; lia).
  destruct (lookup_lt_is_Some_2 _ _ Hlt) as [row Hrow].
  pose proof (rect_lookup _ _ _ _ Hrect Hrow) as Hlen.
  split; rewrite ?grid_play_result by done.
  - simpl. rewrite length_app, length_insert. pose proof (wf_state _ Hw). simpl. lia.
  - simpl. rewrite length_app, length_insert. simpl.
    pose proof (wf_state _ Hw) as Hst. pose proof (wf_history _ Hw) as Hh.
    assert (Forall (λ l, (l < length (heap w) + 1)%nat ∧ l ≠ state (self w))
              (history (self w) ++ [length (heap w)])) as Hall.
    { apply Forall_app. split.
      - eapply Forall_impl; [exact Hh|]. simpl. intros l [??]. split; [lia|done].
      - constructor; [|constructor]. split; lia. }
    destruct (save_history (self w)); [done|].
    apply Forall_app in Hall as [_ Hall]. done.
  - simpl. by rewrite set_cell_length.
  - simpl. by apply set_cell_rect.
  - unfold set_cell. rewrite Hrow. simpl.
    pose proof (wf_cells _ Hw) as Hcells.
    apply Forall_insert; [done|]. apply Forall_insert.
    + by eapply (Forall_lookup_1 _ _ _ _ Hcells Hrow).
    + simpl. tauto.
  - simpl. intros c' Hc'. destruct (decide (c' = c)) as [->|Hne].
    + rewrite (col_of_set_cell_same _ _ _ _ row) by (done || lia).
      unfold landing. rewrite <-Hrows, <-(col_of_length (grid w) c).
      apply stacked_insert; [by apply (wf_stacked _ Hw)|done|].
      destruct Hval as [-> | ->]; done.
    + rewrite col_of_set_cell_other by done. by apply (wf_stacked _ Hw).
  - simpl. apply (wf_players _ Hw).
  - simpl. apply (wf_values _ Hw).
  - simpl. destruct (wins _ _ _ _); [apply (wf_turn _ Hw)|].
    destruct (wf_turn _ Hw) as [[Hcur Hgen]|[Hcur Hgen]]; rewrite Hgen; simpl; auto.
  - simpl. destruct (wins _ _ _ _); [by right|by left].
Qed.

Lemma play_wf w move draw : wf w → wf (play move draw w).2.
Proof.
  intros Hw. destruct (selected move draw (legal_list w)) as [e|j] eqn:Hsel.
  - by rewrite (play_refused _ _ _ _ Hsel).
  - pose proof (selected_legal _ _ _ _ Hsel) as Hj.
    destruct (play_accepted _ _ _ _ Hw Hsel) as (c & -> & Hc & H0 & ->). simpl.
    apply play_result_wf; [done..|]. by eapply legal_no_winner.
Qed.

End invariant.

(** ** Reachable worlds *)

Section reachable_facts.
Implicit Types (w : World) (o : op).

Lemma exec_wf o w : wf w → wf (exec o w).
Proof.
  destruct o as [| |move draw]; simpl; [by rewrite legal_plays_run|done|apply play_wf].
Qed.

Lemma reaches_wf shape keep n w : reaches shape keep n w → wf w.
Proof. induction 1; [by eapply Game_init_wf|by apply exec_wf]. Qed.

Lemma reachable_wf w : reachable w → wf w.
Proof. intros (shape & keep & n & Hw). by eapply reaches_wf. Qed.

Lemma reachable_new shape keep : reachable (new_game shape keep).
Proof. exists shape, keep, 0%nat. by constructor. Qed.

Lemma reachable_exec o w : reachable w → reachable (exec o w).
Proof.
  intros (shape & keep & n & Hw). exists shape, keep. eexists. by apply reaches_step.
Qed.

Lemma reachable_run ops w : reachable w → reachable (run ops w).
Proof.
  revert w. induction ops as [|o ops IH]; intros w Hw; [done|].
  simpl. apply IH. by apply reachable_exec.
Qed.

(** The configuration of the game is fixed at construction. *)
Lemma play_config w move draw :
  wf w →
  board_size (self (play move draw w).2) = board_size (self w) ∧
  save_history (self (play move draw w).2) = save_history (self w).
Proof.
  intros Hw. destruct (selected move draw (legal_list w)) as [e|j] eqn:Hsel.
  - by rewrite (play_refused _ _ _ _ Hsel).
  - by destruct (play_accepted _ _ _ _ Hw Hsel) as (c & -> & Hc & H0 & ->).
Qed.

Lemma reaches_config shape keep n w :
  reaches shape keep n w →
  board_size (self w) = shape ∧ save_history (self w) = keep.
Proof.
  induction 1 as [w Hw|n w o Hw IH].
  - rewrite Game_init_eq in Hw. by simplify_eq.
  - destruct o as [| |move draw]; simpl; [by rewrite legal_plays_run|done|].
    destruct (play_config w move draw) as [-> ->]; [by eapply reaches_wf|done].
Qed.

(** An accepted play, seen from a well-formed world. *)
Lemma play_Ok_inv w move draw w' :
  wf w → play move draw w = (Ok tt, w') →
  ∃ c, selected move draw (legal_list w) = inr (Z.of_nat c) ∧
       (c < (board_size (self w)).2)%nat ∧ 0 ∈ col_of (grid w) c ∧
       w' = play_result w c.
Proof.
  intros Hw Hplay. destruct (selected move draw (legal_list w)) as [e|j] eqn:Hsel.
  - rewrite (play_refused _ _ _ _ Hsel) in Hplay. by simplify_eq.
  - destruct (play_accepted _ _ _ _ Hw Hsel) as (c & -> & Hc & H0 & Heq).
    rewrite Heq in Hplay. exists c. by simplify_eq.
Qed.

Lemma play_Raise_inv w move draw e w' :
  wf w → play move draw w = (Raise e, w') →
  selected move draw (legal_list w) = inl e ∧ w' = w.
Proof.
  intros Hw Hplay. destruct (selected move draw (legal_list w)) as [e'|j] eqn:Hsel.
  - rewrite (play_refused _ _ _ _ Hsel) in Hplay. by simplify_eq.
  - destruct (play_accepted _ _ _ _ Hw Hsel) as (c & -> & Hc & H0 & Heq).
    rewrite Heq in Hplay. by simplify_eq.
Qed.

End reachable_facts.

(** ** Legal moves *)

Lemma winner_run w : winner w = (Ok (winner_ (self w)), w).
Proof. done. Qed.

Lemma legal_list_elem_of w j :
  wf w → winner_ (self w) = None →
  j ∈ legal_list w ↔ ∃ c r, j = Z.of_nat c ∧ cell (grid w) r c = Some 0.
Proof.
  intros Hw Hnone. split.
  - intros Hj. destruct (legal_column _ _ Hw Hj) as (c & -> & Hc & H0).
    apply list_elem_of_lookup in H0 as [r Hr].
    exists c, r. split; [done|]. by eapply col_of_cell; [apply (wf_rect _ Hw)|..].
  - intros (c & r & -> & Hcell). unfold legal_list. rewrite Hnone.
    apply cell_Some in Hcell as (row & Hrow & Hc).
    apply argwhere_free. exists c. split_and!; [done|..].
    + assert (grid w ≠ []) as Hne by (by intros Hnil; rewrite Hnil in Hrow).
      rewrite (rect_ncols _ _ (wf_rect _ Hw) Hne).
      rewrite <-(rect_lookup _ _ _ _ (wf_rect _ Hw) Hrow). by eapply lookup_lt_Some.
    + exists row, 0. split_and!; [by eapply list_elem_of_lookup_2|done|].
      rewrite (wf_values _ Hw). intros Hin.
      apply elem_of_cons in Hin as [?|Hin]; [done|].
      apply elem_of_cons in Hin as [?|Hin]; [done|]. by apply elem_of_nil in Hin.
Qed.

(** C3: in every reachable state [legal_plays()] returns, in ascending order,
    exactly the indices of the columns that have at least one empty cell; it
    returns the empty list as soon as [winner()] is not [None], whatever
    cells remain free; and it leaves the game as it found it. *)
Theorem legal_plays_spec w :
  reachable w →
  ∃ l, legal_plays w = (Ok l, w) ∧
       StronglySorted Z.lt l ∧
       (∀ p, winner w = (Ok (Some p), w) → l = []) ∧
       (winner w = (Ok None, w) →
        ∀ j, j ∈ l ↔ ∃ c r, j = Z.of_nat c ∧ cell (grid w) r c = Some 0).
Proof.
  intros Hw%reachable_wf. exists (legal_list w).
  split_and!; [apply legal_plays_run|..].
  - unfold legal_list. destruct (winner_ (self w)); [constructor|apply argwhere_sorted].
  - intros p. rewrite winner_run. intros [= Hp]. unfold legal_list. by rewrite Hp.
  - rewrite winner_run. intros [= Hnone] j. by apply legal_list_elem_of.
Qed.

Lemma legal_plays_spec_witness :
  reachable (new_game (6, 7)%nat true) ∧
  ∃ l, legal_plays (new_game (6, 7)%nat true) = (Ok l, new_game (6, 7)%nat true) ∧
       StronglySorted Z.lt l ∧
       (∀ p, winner (new_game (6, 7)%nat true) = (Ok (Some p), new_game (6, 7)%nat true) → l = []) ∧
       (winner (new_game (6, 7)%nat true) = (Ok None, new_game (6, 7)%nat true) →
        ∀ j, j ∈ l ↔ ∃ c r, j = Z.of_nat c ∧ cell (grid (new_game (6, 7)%nat true)) r c = Some 0).
Proof.
  split; [apply reachable_new|]. apply legal_plays_spec, reachable_new.
Defined.

(** ** Refused moves *)

Lemma play_not_legal w m draw :
  m ∉ legal_list w → play (Some m) draw w = (Raise IllegalMove, w).
Proof.
  intros Hm. apply play_refused. unfold selected. by rewrite bool_decide_eq_false_2.
Qed.

(** C4: in every state, [play] called with a move that is not in
    [legal_plays()] raises the illegal-move error and leaves the whole world
    (the grid, the history, the last play, the current player and the
    winner) as it was. *)
Theorem play_illegal_move w m draw l :
  legal_plays w = (Ok l, w) → m ∉ l →
  play (Some m) draw w = (Raise IllegalMove, w).
Proof.
  rewrite legal_plays_run. intros [= <-] Hm. by apply play_not_legal.
Qed.

Lemma play_illegal_move_witness :
  play (Some 7) 0 (new_game (6, 7)%nat true)
  = (Raise IllegalMove, new_game (6, 7)%nat true).
Proof.
  apply (play_illegal_move _ 7 0%nat [0; 1; 2; 3; 4; 5; 6]).
  - reflexivity.
  - compute_done.
Defined.

(** The two kinds of illegal move the specification names: a column index
    outside the board, and a column without an empty cell. *)
Lemma play_out_of_range w m draw :
  reachable w → ¬ (0 ≤ m < Z.of_nat (board_size (self w)).2) →
  play (Some m) draw w = (Raise IllegalMove, w).
Proof.
  intros Hw%reachable_wf Hm. apply play_not_legal.
  intros Hin. destruct (legal_column _ _ Hw Hin) as (c & -> & Hc & _). lia.
Qed.

Lemma play_full_column w c draw :
  reachable w → (∀ r, cell (grid w) r c ≠ Some 0) →
  play (Some (Z.of_nat c)) draw w = (Raise IllegalMove, w).
Proof.
  intros Hw%reachable_wf Hfull. apply play_not_legal.
  intros Hin. pose proof (legal_no_winner _ _ Hin) as Hnone.
  apply legal_list_elem_of in Hin as (c' & r & Heq & Hcell); [|done..].
  apply (inj Z.of_nat) in Heq as <-. by apply (Hfull r).
Qed.

(** ** Random moves *)

(** C5: [play()] without a move raises the no-legal-move error when
    [legal_plays()] is empty, and otherwise plays a column taken from
    [legal_plays()]. *)
Theorem play_random w draw l :
  reachable w → legal_plays w = (Ok l, w) →
  (l = [] → play None draw w = (Raise NoLegalMoves, w)) ∧
  (l ≠ [] →
   ∃ j c w', play None draw w = (Ok tt, w') ∧ j ∈ l ∧ j = Z.of_nat c ∧
     last_play (self w') = Some j ∧
     grid w' = set_cell (grid w) (landing w c) c (value (current_player (self w)))).
Proof.
  intros Hw%reachable_wf. rewrite legal_plays_run. intros [= <-]. split.
  - intros Hnil. apply play_refused. unfold selected. by rewrite Hnil.
  - intros Hne.
    destruct (selected None draw (legal_list w)) as [e|j] eqn:Hsel.
    { simpl in Hsel. by destruct (legal_list w). }
    pose proof (selected_legal _ _ _ _ Hsel) as Hj.
    destruct (play_accepted _ _ _ _ Hw Hsel) as (c & -> & Hc & H0 & Hplay).
    exists (Z.of_nat c), c, (play_result w c).
    split_and!; [done..|]. by apply grid_play_result.
Qed.

Lemma play_random_witness :
  reachable (new_game (6, 7)%nat true) ∧
  legal_plays (new_game (6, 7)%nat true)
    = (Ok [0; 1; 2; 3; 4; 5; 6], new_game (6, 7)%nat true) ∧
  (([0; 1; 2; 3; 4; 5; 6] : list Z) = [] →
   play None 12 (new_game (6, 7)%nat true)
     = (Raise NoLegalMoves, new_game (6, 7)%nat true)) ∧
  (([0; 1; 2; 3; 4; 5; 6] : list Z) ≠ [] →
   ∃ j c w', play None 12 (new_game (6, 7)%nat true) = (Ok tt, w') ∧
     j ∈ [0; 1; 2; 3; 4; 5; 6] ∧ j = Z.of_nat c ∧
     last_play (self w') = Some j ∧
     grid w' = set_cell (grid (new_game (6, 7)%nat true))
                 (landing (new_game (6, 7)%nat true) c) c
                 (value (current_player (self (new_game (6, 7)%nat true))))).
Proof.
  split; [apply reachable_new|]. split; [reflexivity|].
  apply (play_random (new_game (6, 7)%nat true) 12 [0; 1; 2; 3; 4; 5; 6]);
    [apply reachable_new|reflexivity].
Defined.

(** ** Where the piece lands *)

Section placement.
Implicit Types (w : World) (c : nat).

Lemma landing_column w c :
  wf w → (c < (board_size (self w)).2)%nat → 0 ∈ col_of (grid w) c →
  np.column (grid w) (Z.of_nat c) = Some (col_of (grid w) c) ∧
  Z.of_nat (board_size (self w)).1 - np.count_nonzero (col_of (grid w) c) - 1
    = Z.of_nat (landing w c) ∧
  ∃ row, grid w !! landing w c = Some row ∧ row !! c = Some 0.
Proof.
  intros Hw Hc H0.
  pose proof (wf_rect _ Hw) as Hrect. pose proof (wf_rows _ Hw) as Hrows.
  destruct (stacked_landing _ (wf_stacked _ Hw c Hc) H0) as [Hnz Hland].
  rewrite col_of_length, Hrows in Hnz, Hland. fold (landing w c) in Hland.
  split_and!.
  - by apply (column_nat _ _ _ Hrect).
  - rewrite nz_count. unfold landing. lia.
  - apply (col_of_cell _ _ _ _ _ Hrect Hc), cell_Some in Hland. done.
Qed.

End placement.

(** C2: an accepted play into column [c] (the column [play] records) writes
    the current player's value at row
    [rows - (number of non-empty cells of column c) - 1] of that column, which
    was empty; every other cell keeps its content, so that exactly one more
    cell is occupied. *)
Theorem play_places_piece w move draw w' :
  reachable w → play move draw w = (Ok tt, w') →
  ∃ (c : nat) (col : list Z),
    last_play (self w') = Some (Z.of_nat c) ∧
    (∀ m, move = Some m → m = Z.of_nat c) ∧
    np.column (grid w) (Z.of_nat c) = Some col ∧
    let row := Z.of_nat (board_size (self w)).1 - np.count_nonzero col - 1 in
    0 ≤ row < Z.of_nat (board_size (self w)).1 ∧
    cell (grid w) (Z.to_nat row) c = Some 0 ∧
    cell (grid w') (Z.to_nat row) c = Some (value (current_player (self w))) ∧
    value (current_player (self w)) ≠ 0 ∧
    (∀ r' c', (r', c') ≠ (Z.to_nat row, c) → cell (grid w') r' c' = cell (grid w) r' c') ∧
    occupied (grid w') = S (occupied (grid w)).
Proof.
  intros Hw%reachable_wf Hplay.
  destruct (play_Ok_inv _ _ _ _ Hw Hplay) as (c & Hsel & Hc & H0 & ->).
  destruct (landing_column _ _ Hw Hc H0) as (Hcol & Hrow & row & Hlook & Hcell).
  assert (value (current_player (self w)) ≠ 0) as Hv.
  { destruct (current_value _ Hw) as [-> | ->]; done. }
  pose proof (rect_lookup _ _ _ _ (wf_rect _ Hw) Hlook) as Hlen.
  exists c, (col_of (grid w) c). split_and!; [done| |done|].
  { intros m ->. unfold selected in Hsel. case_bool_decide; by simplify_eq. }
  cbv zeta. rewrite Hrow, Nat2Z.id, grid_play_result by done.
  split_and!.
  - lia.
  - pose proof (lookup_lt_Some _ _ _ Hlook) as Hlt. rewrite (wf_rows _ Hw) in Hlt. lia.
  - by rewrite (cell_lookup _ _ _ _ Hlook).
  - apply (set_cell_same _ _ _ _ row); [done|lia].
  - done.
  - intros r' c' Hne. by apply set_cell_other.
  - by apply (occupied_set_cell _ _ _ _ row).
Qed.

Lemma play_places_piece_witness :
  reachable (new_game (6, 7)%nat true) ∧
  ∃ (c : nat) (col : list Z),
    last_play (self (play (Some 3) 0 (new_game (6, 7)%nat true)).2) = Some (Z.of_nat c) ∧
    (∀ m, Some 3 = Some m → m = Z.of_nat c) ∧
    np.column (grid (new_game (6, 7)%nat true)) (Z.of_nat c) = Some col ∧
    let row := Z.of_nat (board_size (self (new_game (6, 7)%nat true))).1
               - np.count_nonzero col - 1 in
    0 ≤ row < Z.of_nat (board_size (self (new_game (6, 7)%nat true))).1 ∧
    cell (grid (new_game (6, 7)%nat true)) (Z.to_nat row) c = Some 0 ∧
    cell (grid (play (Some 3) 0 (new_game (6, 7)%nat true)).2) (Z.to_nat row) c
      = Some (value (current_player (self (new_game (6, 7)%nat true)))) ∧
    value (current_player (self (new_game (6, 7)%nat true))) ≠ 0 ∧
    (∀ r' c', (r', c') ≠ (Z.to_nat row, c) →
       cell (grid (play (Some 3) 0 (new_game (6, 7)%nat true)).2) r' c'
       = cell (grid (new_game (6, 7)%nat true)) r' c') ∧
    occupied (grid (play (Some 3) 0 (new_game (6, 7)%nat true)).2)
      = S (occupied (grid (new_game (6, 7)%nat true))).
Proof.
  split; [apply reachable_new|].
  apply (play_places_piece (new_game (6, 7)%nat true) (Some 3) 0%nat);
    [apply reachable_new|reflexivity].
Defined.

(** ** Whose turn it is *)

Lemma other_involutive p : p = player_A ∨ p = player_B → other (other p) = p.
Proof. by intros [-> | ->]. Qed.

Lemma other_ne p : p = player_A ∨ p = player_B → other p ≠ p ∧ Player_eq (other p) p = false.
Proof. by intros [-> | ->]. Qed.

Lemma current_player_cases w :
  wf w → current_player (self w) = player_A ∨ current_player (self w) = player_B.
Proof. intros Hw. destruct (wf_turn _ Hw) as [[-> _]|[-> _]]; auto. Qed.

Lemma next_player w :
  wf w →
  ∃ gen', py.next (players_gen (self w)) = Some (other (current_player (self w)), gen').
Proof.
  intros Hw. destruct (wf_turn _ Hw) as [[-> ->]|[-> ->]]; by eexists.
Qed.

(** C6: the turn passes between the two registered players, each the other's
    successor in the cycle; after a call of [play] the current player is the
    other player exactly when the move was accepted and produced no winner;
    a winning move leaves the mover as current player (and as winner), a
    refused move leaves the turn where it was. *)
Theorem turn_rotation w move draw r w' :
  reachable w → play move draw w = (r, w') →
  players (self w) = [player_A; player_B] ∧
  current_player (self w) ∈ players (self w) ∧
  other (current_player (self w)) ∈ players (self w) ∧
  other (current_player (self w)) ≠ current_player (self w) ∧
  other (other (current_player (self w))) = current_player (self w) ∧
  (∃ gen', py.next (players_gen (self w)) = Some (other (current_player (self w)), gen')) ∧
  (current_player (self w') = other (current_player (self w))
     ↔ r = Ok tt ∧ winner_ (self w') = None) ∧
  (current_player (self w') = current_player (self w)
     ↔ ¬ (r = Ok tt ∧ winner_ (self w') = None)) ∧
  (r = Ok tt → winner_ (self w') ≠ None →
     winner_ (self w') = Some (current_player (self w)) ∧
     current_player (self w') = current_player (self w)).
Proof.
  intros Hw%reachable_wf Hplay.
  pose proof (current_player_cases _ Hw) as Hcur.
  destruct (other_ne _ Hcur) as [Hne _].
  split_and!.
  - apply (wf_players _ Hw).
  - rewrite (wf_players _ Hw). destruct Hcur as [-> | ->]; repeat constructor.
  - rewrite (wf_players _ Hw). destruct Hcur as [-> | ->]; repeat constructor.
  - done.
  - by apply other_involutive.
  - by apply next_player.
  - destruct r as [[]|e].
    + destruct (play_Ok_inv _ _ _ _ Hw Hplay) as (c & Hsel & Hc & H0 & ->).
      pose proof (legal_no_winner _ _ (selected_legal _ _ _ _ Hsel)) as Hnone.
      simpl. destruct (wins _ _ _ _); [naive_solver|].
      destruct (wf_turn _ Hw) as [[Hp Hgen]|[Hp Hgen]]; rewrite Hgen, Hp; simpl; naive_solver.
    + destruct (play_Raise_inv _ _ _ _ _ Hw Hplay) as [_ ->]. naive_solver.
  - destruct r as [[]|e].
    + destruct (play_Ok_inv _ _ _ _ Hw Hplay) as (c & Hsel & Hc & H0 & ->).
      pose proof (legal_no_winner _ _ (selected_legal _ _ _ _ Hsel)) as Hnone.
      simpl. destruct (wins _ _ _ _); [naive_solver|].
      split; [|naive_solver]. intros Heq. exfalso. revert Heq.
      destruct (wf_turn _ Hw) as [[Hp Hgen]|[Hp Hgen]]; rewrite Hgen, Hp; simpl; done.
    + destruct (play_Raise_inv _ _ _ _ _ Hw Hplay) as [_ ->]. naive_solver.
  - intros -> Hwin.
    destruct (play_Ok_inv _ _ _ _ Hw Hplay) as (c & Hsel & Hc & H0 & ->).
    pose proof (legal_no_winner _ _ (selected_legal _ _ _ _ Hsel)) as Hnone.
    simpl in *. destruct (wins _ _ _ _); [done|]. by rewrite Hnone in Hwin.
Qed.

Lemma turn_rotation_witness :
  reachable (new_game (6, 7)%nat true) ∧
  current_player (self (play (Some 3) 0 (new_game (6, 7)%nat true)).2) = player_B.
Proof.
  split; [apply reachable_new|].
  apply (turn_rotation (new_game (6, 7)%nat true) (Some 3) 0%nat (Ok tt)
           (play (Some 3) 0 (new_game (6, 7)%nat true)).2);
    [apply reachable_new|reflexivity|]. split; reflexivity.
Defined.

(** ** The recorded history *)

Section history_facts.
Implicit Types (w : World) (o : op).

(** The arrays the history refers to are not the array the game writes to:
    updating the state and allocating a new array leaves them alone. *)
Lemma deref_old w x' l :
  (l < length (heap w))%nat → l ≠ state (self w) →
  deref (<[state (self w) := x']> (heap w) ++ [x']) l = deref (heap w) l.
Proof.
  intros Hl Hne. unfold deref.
  rewrite lookup_app_l by (by rewrite length_insert).
  by rewrite list_lookup_insert_ne.
Qed.

Lemma deref_new w x' :
  deref (<[state (self w) := x']> (heap w) ++ [x']) (length (heap w)) = x'.
Proof.
  unfold deref. rewrite lookup_app_r by (by rewrite length_insert).
  by rewrite length_insert, Nat.sub_diag.
Qed.

Lemma snapshots_play_result w c :
  wf w →
  snapshots (play_result w c) =
    if save_history (self w) then snapshots w ++ [grid (play_result w c)]
    else [grid (play_result w c)].
Proof.
  intros Hw. rewrite grid_play_result by done.
  unfold snapshots, play_result. cbn [heap self history].
  set (x' := set_cell _ _ _ _).
  assert (deref (<[state (self w) := x']> (heap w) ++ [x']) <$> history (self w)
          = deref (heap w) <$> history (self w)) as Hold.
  { apply list_fmap_ext. intros i l Hl.
    pose proof (Forall_lookup_1 _ _ _ _ (wf_history _ Hw) Hl) as [? ?].
    by apply deref_old. }
  destruct (save_history (self w)).
  - by rewrite fmap_app, Hold, list_fmap_singleton, deref_new.
  - by rewrite list_fmap_singleton, deref_new.
Qed.

Lemma exec_not_accepted o w : wf w → accepted o w = false → exec o w = w.
Proof.
  intros Hw. destruct o as [| |move draw]; simpl; [by rewrite legal_plays_run|done|].
  destruct (play move draw w) as [[[]|e] w'] eqn:Hplay; [done|]. intros _.
  by destruct (play_Raise_inv _ _ _ _ _ Hw Hplay) as [_ ->].
Qed.

Lemma snapshots_exec o w :
  wf w →
  snapshots (exec o w) =
    if accepted o w then
      if save_history (self w) then snapshots w ++ [grid (exec o w)] else [grid (exec o w)]
    else snapshots w.
Proof.
  intros Hw. destruct (accepted o w) eqn:Hacc; [|by rewrite exec_not_accepted].
  destruct o as [| |move draw]; simpl in *; [done..|].
  destruct (play move draw w) as [[[]|e] w'] eqn:Hplay; [|done].
  destruct (play_Ok_inv _ _ _ _ Hw Hplay) as (c & _ & _ & _ & ->). simpl.
  by apply snapshots_play_result.
Qed.

End history_facts.

(** C7: with history retention, after [n] accepted moves the history holds
    [n + 1] snapshots, the first one is the empty grid, and an operation
    either applies a move and appends the grid it produced after the
    snapshots already there, which stay as they were, or leaves the history
    alone; without retention the history holds the current grid only. *)
Theorem history_snapshots shape keep n w :
  reaches shape keep n w →
  if keep then
    length (snapshots w) = S n ∧
    snapshots w !! 0%nat = Some (np.zeros shape) ∧
    ∀ o, snapshots (exec o w) =
           if accepted o w then snapshots w ++ [grid (exec o w)] else snapshots w
  else snapshots w = [grid w].
Proof.
  intros Hreach.
  assert (if keep then length (snapshots w) = S n ∧ snapshots w !! 0%nat = Some (np.zeros shape)
          else snapshots w = [grid w]) as Hinv.
  { induction Hreach as [w Hw|n w o Hw IH].
    - rewrite Game_init_eq in Hw. simplify_eq. by destruct keep.
    - pose proof (reaches_wf _ _ _ _ Hw) as Hwf.
      destruct (reaches_config _ _ _ _ Hw) as [_ Hkeep].
      rewrite (snapshots_exec _ _ Hwf), Hkeep.
      destruct (accepted o w) eqn:Hacc.
      + destruct keep; [|done]. destruct IH as [Hlen H0].
        rewrite length_app, Hlen. simpl. split; [lia|].
        rewrite lookup_app_l by lia. done.
      + rewrite (exec_not_accepted _ _ Hwf Hacc). done. }
  destruct keep; [|done]. destruct Hinv as [Hlen H0]. split_and!; [done..|].
  intros o. pose proof (reaches_wf _ _ _ _ Hreach) as Hwf.
  destruct (reaches_config _ _ _ _ Hreach) as [_ Hkeep].
  by rewrite (snapshots_exec _ _ Hwf), Hkeep.
Qed.

Lemma history_snapshots_witness :
  reaches (6, 7)%nat true 1 (exec (op_play (Some 3) 0) (new_game (6, 7)%nat true)) ∧
  length (snapshots (exec (op_play (Some 3) 0) (new_game (6, 7)%nat true))) = 2%nat ∧
  snapshots (exec (op_play (Some 3) 0) (new_game (6, 7)%nat true)) !! 0%nat
    = Some (np.zeros (6, 7)%nat) ∧
  ∀ o, snapshots (exec o (exec (op_play (Some 3) 0) (new_game (6, 7)%nat true))) =
         if accepted o (exec (op_play (Some 3) 0) (new_game (6, 7)%nat true))
         then snapshots (exec (op_play (Some 3) 0) (new_game (6, 7)%nat true))
              ++ [grid (exec o (exec (op_play (Some 3) 0) (new_game (6, 7)%nat true)))]
         else snapshots (exec (op_play (Some 3) 0) (new_game (6, 7)%nat true)).
Proof.
  assert (reaches (6, 7)%nat true 1 (exec (op_play (Some 3) 0) (new_game (6, 7)%nat true)))
    as Hreach.
  { apply (reaches_step (6, 7)%nat true 0 (new_game (6, 7)%nat true) (op_play (Some 3) 0)).
    by apply reaches_init. }
  split; [exact Hreach|].
  exact (history_snapshots (6, 7)%nat true 1 _ Hreach).
Defined.

(** ** The winner *)

Section winner_facts.
Implicit Types (w : World) (o : op) (p : Player).

(** Once a winner is set, no operation changes anything. *)
Lemma exec_after_win o w p : winner_ (self w) = Some p → exec o w = w.
Proof.
  intros Hp.
  assert (legal_list w = []) as Hnil by (unfold legal_list; by rewrite Hp).
  destruct o as [| |move draw]; simpl; [by rewrite legal_plays_run|done|].
  destruct move as [m|].
  - rewrite (play_refused w (Some m) draw IllegalMove); [done|].
    unfold selected. rewrite Hnil. by rewrite bool_decide_eq_false_2 by apply not_elem_of_nil.
  - rewrite (play_refused w None draw NoLegalMoves); [done|].
    unfold selected. by rewrite Hnil.
Qed.

Lemma run_after_win ops w p : winner_ (self w) = Some p → run ops w = w.
Proof.
  intros Hp. induction ops as [|o ops IH]; [done|].
  simpl. rewrite (exec_after_win o w p Hp). apply IH.
Qed.

(** An operation on a game without winner either leaves it without winner, or
    is an accepted play that makes the mover the winner. *)
Lemma exec_sets_winner o w :
  wf w → winner_ (self w) = None →
  winner_ (self (exec o w)) = None ∨
  (accepted o w = true ∧ winner_ (self (exec o w)) = Some (current_player (self w))).
Proof.
  intros Hw Hnone. destruct (accepted o w) eqn:Hacc;
    [|rewrite exec_not_accepted by done; by left].
  destruct o as [| |move draw]; simpl in *; [done..|].
  destruct (play move draw w) as [[[]|e] w'] eqn:Hplay; [|done].
  destruct (play_Ok_inv _ _ _ _ Hw Hplay) as (c & _ & _ & _ & ->). simpl.
  destruct (wins _ _ _ _); [by right|by left].
Qed.

End winner_facts.

(** C8: [winner()] is [None] in a new game; an operation sets it only by an
    accepted play, to the player who moved; and once it is some player, it is
    that same player after any further sequence of operations. *)
Theorem winner_set_once shape keep ops w :
  Game_init shape keep = Some w →
  winner w = (Ok None, w) ∧
  (∀ o, winner (run ops w) = (Ok None, run ops w) →
        winner (exec o (run ops w)) = (Ok None, exec o (run ops w)) ∨
        (accepted o (run ops w) = true ∧
         winner (exec o (run ops w))
           = (Ok (Some (current_player (self (run ops w)))), exec o (run ops w)))) ∧
  (∀ p, winner (run ops w) = (Ok (Some p), run ops w) →
        ∀ ops', winner (run ops' (run ops w)) = (Ok (Some p), run ops' (run ops w))).
Proof.
  intros Hinit.
  assert (reachable w) as Hw by (exists shape, keep, 0%nat; by constructor).
  split_and!.
  - rewrite Game_init_eq in Hinit. by simplify_eq.
  - intros o. rewrite !winner_run. intros [= Hnone].
    destruct (exec_sets_winner o (run ops w)) as [H1|[H1 H2]];
      [by apply reachable_wf, reachable_run|done|..].
    + left. by rewrite H1.
    + right. by rewrite H2.
  - intros p. rewrite !winner_run. intros [= Hp] ops'.
    by rewrite winner_run, (run_after_win ops' _ p Hp), Hp.
Qed.

Lemma winner_set_once_witness :
  Game_init (6, 7)%nat true = Some (new_game (6, 7)%nat true) ∧
  winner (run [op_play (Some 0) 0; op_legal_plays; op_play None 5]
            (run vertical_win (new_game (6, 7)%nat true)))
  = (Ok (Some player_A),
     run [op_play (Some 0) 0; op_legal_plays; op_play None 5]
       (run vertical_win (new_game (6, 7)%nat true))).
Proof.
  split; [reflexivity|].
  apply (winner_set_once (6, 7)%nat true vertical_win (new_game (6, 7)%nat true) eq_refl).
  vm_compute. reflexivity.
Defined.

(** ** The last play *)

(** C9, as amended: after every accepted play, [last_play] is the index of
    the column the piece was dropped into, and only that: the row the piece
    landed on is not stored. *)
Theorem last_play_column w move draw w' :
  reachable w → play move draw w = (Ok tt, w') →
  ∃ c, last_play (self w') = Some (Z.of_nat c) ∧
       (∀ m, move = Some m → m = Z.of_nat c) ∧
       grid w' = set_cell (grid w) (landing w c) c (value (current_player (self w))) ∧
       cell (grid w) (landing w c) c = Some 0 ∧
       cell (grid w') (landing w c) c = Some (value (current_player (self w))).
Proof.
  intros Hw%reachable_wf Hplay.
  destruct (play_Ok_inv _ _ _ _ Hw Hplay) as (c & Hsel & Hc & H0 & ->).
  destruct (landing_column _ _ Hw Hc H0) as (_ & _ & row & Hlook & Hcell).
  pose proof (rect_lookup _ _ _ _ (wf_rect _ Hw) Hlook) as Hlen.
  exists c. rewrite grid_play_result by done. split_and!; [done| |done|..].
  - intros m ->. unfold selected in Hsel. case_bool_decide; by simplify_eq.
  - by rewrite (cell_lookup _ _ _ _ Hlook).
  - apply (set_cell_same _ _ _ _ row); [done|lia].
Qed.

Lemma last_play_column_witness :
  reachable (new_game (6, 7)%nat true) ∧
  ∃ c, last_play (self (play (Some 3) 0 (new_game (6, 7)%nat true)).2) = Some (Z.of_nat c) ∧
       (∀ m, Some 3 = Some m → m = Z.of_nat c) ∧
       grid (play (Some 3) 0 (new_game (6, 7)%nat true)).2
       = set_cell (grid (new_game (6, 7)%nat true)) (landing (new_game (6, 7)%nat true) c) c
           (value (current_player (self (new_game (6, 7)%nat true)))) ∧
       cell (grid (new_game (6, 7)%nat true)) (landing (new_game (6, 7)%nat true) c) c = Some 0 ∧
       cell (grid (play (Some 3) 0 (new_game (6, 7)%nat true)).2)
            (landing (new_game (6, 7)%nat true) c) c
       = Some (value (current_player (self (new_game (6, 7)%nat true)))).
Proof.
  split; [apply reachable_new|].
  apply (last_play_column (new_game (6, 7)%nat true) (Some 3) 0%nat);
    [apply reachable_new|reflexivity].
Defined.

(** C9 as stated fails: two pieces dropped one after the other into column 3
    of a new 6x7 game land on rows 5 and 4, and [last_play] is [3] after
    both. *)
Lemma last_play_not_pair : ¬ last_play_records_pair.
Proof.
  intros [decode Hdec].
  set (w0 := new_game (6, 7)%nat true).
  set (w1 := (play (Some 3) 0 w0).2).
  set (w2 := (play (Some 3) 0 w1).2).
  assert (reachable w1) as Hw1 by apply (reachable_exec (op_play (Some 3) 0)), reachable_new.
  destruct (Hdec w0 (Some 3) 0%nat w1 (reachable_new _ _) eq_refl)
    as (r & c & Hd1 & _ & Hafter).
  destruct (Hdec w1 (Some 3) 0%nat w2 Hw1 eq_refl) as (r' & c' & Hd2 & Hbefore & _).
  assert (last_play (self w2) = last_play (self w1)) as Heq by reflexivity.
  rewrite Heq, Hd1 in Hd2.
  assert (c' = c ∧ r' = r) as [-> ->] by (split; apply (inj Z.of_nat); congruence).
  rewrite Hbefore in Hafter. discriminate Hafter.
Qed.

(** ** A new game *)

(** C10: a new game starts with player A (value 1, display O) as the current
    player and B (value 2, display X) as the second registered player, so the
    first accepted move writes the value 1 into the empty grid. *)
Theorem new_game_first_player shape keep :
  ∃ w, Game_init shape keep = Some w ∧
       current_player (self w) = mkPlayer "A" 1 "O" ∧
       players (self w) = [mkPlayer "A" 1 "O"; mkPlayer "B" 2 "X"] ∧
       grid w = np.zeros shape ∧
       ∀ move draw w', play move draw w = (Ok tt, w') →
         ∃ c, last_play (self w') = Some (Z.of_nat c) ∧
              grid w' = set_cell (np.zeros shape) (shape.1 - 1) c 1 ∧
              cell (grid w') (shape.1 - 1) c = Some 1 ∧
              occupied (grid w') = 1%nat.
Proof.
  eexists. split; [apply Game_init_eq|]. set (w := mkWorld _ _).
  assert (wf w) as Hw by (by apply (Game_init_wf shape keep), Game_init_eq).
  assert (grid w = np.zeros shape) as Hgrid by done.
  split_and!; [done..|]. intros move draw w' Hplay.
  destruct (play_Ok_inv _ _ _ _ Hw Hplay) as (c & Hsel & Hc & H0 & ->).
  destruct (landing_column _ _ Hw Hc H0) as (_ & _ & row & Hlook & Hcell).
  pose proof (rect_lookup _ _ _ _ (wf_rect _ Hw) Hlook) as Hlen.
  assert (landing w c = (shape.1 - 1)%nat) as Hland.
  { unfold landing. rewrite Hgrid, col_of_zeros, nz_replicate_0. simpl. lia. }
  exists c. rewrite grid_play_result by done. rewrite Hland in *. rewrite Hgrid in *.
  split_and!; [done..| |].
  - apply (set_cell_same _ _ _ _ row); [done|lia].
  - rewrite (occupied_set_cell _ _ _ _ row) by done.
    f_equal. unfold occupied, np.zeros.
    rewrite fmap_replicate, nz_replicate_0, sum_list_replicate. lia.
Qed.

Lemma new_game_first_player_witness :
  ∃ c, last_play (self (play (Some 3) 0 (new_game (6, 7)%nat true)).2) = Some (Z.of_nat c) ∧
       grid (play (Some 3) 0 (new_game (6, 7)%nat true)).2
         = set_cell (np.zeros (6, 7)%nat) 5 c 1 ∧
       cell (grid (play (Some 3) 0 (new_game (6, 7)%nat true)).2) 5 c = Some 1 ∧
       occupied (grid (play (Some 3) 0 (new_game (6, 7)%nat true)).2) = 1%nat.
Proof.
  destruct (new_game_first_player (6, 7)%nat true) as (w & Hinit & _ & _ & _ & Hfirst).
  rewrite Game_init_eq in Hinit. apply (inj Some) in Hinit. subst w.
  apply (Hfirst (Some 3) 0%nat). reflexivity.
Defined.

(** ** Four in a row *)

(** C1, on a 6x6 board after the moves of [antidiagonal_game]: player A's
    move into column 3 is accepted and lands on row 2, the anti-diagonal
    through that cell then holds four consecutive pieces of A, and yet no
    winner is set and the turn passes to B.  The fourth space [play] inspects
    is [np.diagonal(x[:, ::-1], offset=len(x) - (i + j))]: [len(x)] is the
    number of rows, where the anti-diagonal through [(i, j)] has offset
    [columns - 1 - (i + j)]; the two agree only on boards one column wider
    than high, such as the default 6x7 board. *)
Theorem antidiagonal_win_missed :
  accepted (op_play (Some 3) 0) (run antidiagonal_game (new_game (6, 6)%nat true)) = true ∧
  current_player (self (run antidiagonal_game (new_game (6, 6)%nat true))) = player_A ∧
  cell (grid (run antidiagonal_game (new_game (6, 6)%nat true))) 2 3 = Some 0 ∧
  cell (grid (run (antidiagonal_game ++ [op_play (Some 3) 0]) (new_game (6, 6)%nat true))) 2 3
    = Some 1 ∧
  four (grid (run (antidiagonal_game ++ [op_play (Some 3) 0]) (new_game (6, 6)%nat true)))
    1 2 3 1 (-1) = true ∧
  line_win (grid (run (antidiagonal_game ++ [op_play (Some 3) 0]) (new_game (6, 6)%nat true)))
    1 2 3 = true ∧
  winner_ (self (run (antidiagonal_game ++ [op_play (Some 3) 0]) (new_game (6, 6)%nat true)))
    = None ∧
  current_player (self (run (antidiagonal_game ++ [op_play (Some 3) 0])
                          (new_game (6, 6)%nat true))) = player_B.
Proof. vm_compute. repeat split. Qed.

(** The same moves on the default 6x7 board: the win is detected. *)
Lemma antidiagonal_win_default_board :
  winner_ (self (run (antidiagonal_game ++ [op_play (Some 3) 0]) (new_game (6, 7)%nat true)))
    = Some player_A.
Proof. vm_compute. reflexivity. Qed.

(** ** The check for a winner *)

Section pattern_matching.
Implicit Types (v : Z) (l p space : list Z).

Lemma digit_inj v1 v2 : is_cell v1 → is_cell v2 → digit v1 = digit v2 → v1 = v2.
Proof. by intros [-> | [-> | ->]] [-> | [-> | ->]]. Qed.

Lemma str_cell v : is_cell v → py.str v = String (digit v) EmptyString.
Proof. by intros [-> | [-> | ->]]. Qed.

Lemma join_cells l : Forall is_cell l → py.join "" (py.str <$> l) = encode l.
Proof.
  induction 1 as [|v l Hv Hl IH]; [done|].
  unfold py.join in *. cbn [fmap list_fmap String.concat encode foldr].
  change (list_fmap Z string py.str l) with (py.str <$> l).
  rewrite (str_cell v Hv). destruct l as [|v' l]; [done|].
  rewrite IH. done.
Qed.

Lemma pattern_encode v : is_cell v → pattern v = encode (replicate 4 v).
Proof. by intros [-> | [-> | ->]]. Qed.

Lemma prefix_encode p l :
  Forall is_cell p → Forall is_cell l →
  String.prefix (encode p) (encode l) = true ↔ ∃ rest, l = p ++ rest.
Proof.
  intros Hp. revert l.
  induction Hp as [|a p Ha Hp IH]; intros l Hl.
  { simpl. destruct (encode l); naive_solver. }
  destruct Hl as [|b l Hb Hl]; simpl.
  { split; [done|]. by intros [rest ?]. }
  destruct (Ascii.ascii_dec (digit a) (digit b)) as [Heq|Hne].
  - apply digit_inj in Heq as ->; [|done..]. rewrite (IH l Hl).
    split; intros [rest Hrest]; exists rest.
    + by rewrite Hrest.
    + simpl in Hrest. by simplify_eq.
  - split; [done|]. intros [rest Hrest]. simpl in Hrest. by simplify_eq.
Qed.

Lemma str_in_encode p l :
  p ≠ [] → Forall is_cell p → Forall is_cell l →
  py.str_in (encode p) (encode l) = true ↔ ∃ k, occurs_at p l k.
Proof.
  intros Hne Hp Hl. induction Hl as [|b l Hb Hl IH].
  - simpl. destruct p as [|a p]; [done|]. simpl. split; [done|].
    intros [k [rest Hrest]]. rewrite drop_nil in Hrest. done.
  - cbn [encode foldr py.str_in]. fold (encode l).
    change (String (digit b) (encode l)) with (encode (b :: l)).
    rewrite orb_true_iff, IH, prefix_encode by (done || by constructor).
    split.
    + intros [H0|[k Hk]]; [by exists 0%nat|]. by exists (S k).
    + intros [[|k] Hk]; [by left|]. right. by exists k.
Qed.

Lemma occurs_at_lookup p l k :
  occurs_at p l k ↔ ∀ d, (d < length p)%nat → l !! (k + d)%nat = p !! d.
Proof.
  unfold occurs_at. split.
  - intros [rest Hrest] d Hd. rewrite <-lookup_drop, Hrest. by rewrite lookup_app_l.
  - intros Hlook. exists (drop (length p) (drop k l)).
    rewrite <-(take_drop (length p) (drop k l)) at 1. f_equal.
    apply list_eq. intros d. destruct (decide (d < length p)%nat) as [Hd|Hd].
    + rewrite lookup_take_lt, lookup_drop by done. by apply Hlook.
    + rewrite lookup_take_ge by lia. symmetry. apply lookup_ge_None. lia.
Qed.

(** The text of a space contains the pattern of [v] exactly when four
    consecutive cells of the space hold [v]. *)
Lemma space_matches_spec v space :
  is_cell v → Forall is_cell space →
  space_matches (pattern v) space = true ↔
  ∃ k, ∀ d, (d < 4)%nat → space !! (k + d)%nat = Some v.
Proof.
  intros Hv Hspace. unfold space_matches.
  rewrite join_cells, pattern_encode by done.
  rewrite str_in_encode; [|done|by apply Forall_replicate|done].
  apply exist_proper. intros k. rewrite occurs_at_lookup, length_replicate.
  apply forall_proper. intros d. split; intros Hd Hlt; rewrite (Hd Hlt).
  - by apply lookup_replicate_2.
  - symmetry. by apply lookup_replicate_2.
Qed.

End pattern_matching.

(** The cells of the spaces [play] inspects. *)
Section spaces.
Implicit Types (x : np.ndarray) (l row : list Z) (r c k n : nat) (v u : Z).

Lemma slice_lookup {A} (l : list A) (a b : Z) k (u : A) :
  0 ≤ a → 0 ≤ b →
  py.slice l a b !! k = Some u ↔
  a + Z.of_nat k < b ∧ l !! (Z.to_nat a + k)%nat = Some u.
Proof.
  intros Ha Hb. unfold py.slice, py.slice_bound.
  rewrite !decide_False by lia. rewrite lookup_take_Some, lookup_drop.
  split.
  - intros [Hl Hk]. pose proof (lookup_lt_Some _ _ _ Hl). split; [lia|].
    rewrite <-Hl. f_equal. lia.
  - intros [Hk Hl]. pose proof (lookup_lt_Some _ _ _ Hl). split; [|lia].
    rewrite <-Hl. f_equal. lia.
Qed.

Lemma vertical_lookup n x (a b : Z) c k v :
  rect n x → (c < n)%nat → 0 ≤ a → 0 ≤ b →
  col_of (py.slice x a b) c !! k = Some v ↔
  a + Z.of_nat k < b ∧ cell x (Z.to_nat a + k) c = Some v.
Proof.
  intros Hx Hc Ha Hb.
  rewrite (col_of_cell n) by (by try apply rect_slice).
  rewrite !cell_Some. setoid_rewrite slice_lookup; [|done..]. naive_solver.
Qed.

Lemma diag_from_lookup n x c k : rect n x → np.diag_from x c !! k = cell x k (c + k).
Proof.
  intros Hx. revert c k. induction Hx as [|row x Hrow Hx IH]; intros c k; [done|].
  simpl. destruct (row !! c) as [u|] eqn:Hu.
  - destruct k as [|k]; simpl.
    + by rewrite Nat.add_0_r, (cell_lookup _ _ _ row).
    + rewrite IH. by replace (c + S k)%nat with (S c + k)%nat by lia.
  - apply lookup_ge_None in Hu. rewrite lookup_nil. symmetry.
    destruct k as [|k]; unfold cell; simpl.
    + rewrite Nat.add_0_r. by apply lookup_ge_None.
    + destruct (x !! k) as [row'|] eqn:Hrow'; [|done]. simpl.
      apply lookup_ge_None. rewrite (rect_lookup _ _ _ _ Hx Hrow'). lia.
Qed.

Lemma cell_drop x n r c : cell (drop n x) r c = cell x (n + r) c.
Proof. unfold cell. by rewrite lookup_drop. Qed.

Lemma diagonal_lookup n x (offset : Z) k :
  rect n x →
  np.diagonal x offset !! k
  = cellZ x (Z.of_nat k + Z.max 0 (- offset)) (Z.of_nat k + Z.max 0 offset).
Proof.
  intros Hx. unfold np.diagonal. destruct (decide (0 ≤ offset)).
  - rewrite (diag_from_lookup n) by done.
    unfold cellZ. rewrite decide_True by lia. f_equal; lia.
  - rewrite (diag_from_lookup n) by (by apply Forall_drop).
    rewrite cell_drop. unfold cellZ. rewrite decide_True by lia. f_equal; lia.
Qed.

Lemma fliplr_rect n x : rect n x → rect n (np.fliplr x).
Proof.
  intros Hx. unfold np.fliplr. apply Forall_fmap.
  eapply Forall_impl; [exact Hx|]. intros row Hrow. simpl. by rewrite length_reverse.
Qed.

Lemma fliplr_cell n x r c u :
  rect n x →
  cell (np.fliplr x) r c = Some u ↔ (c < n)%nat ∧ cell x r (n - 1 - c) = Some u.
Proof.
  intros Hx. unfold cell, np.fliplr. rewrite list_lookup_fmap.
  destruct (x !! r) as [row|] eqn:Hrow; simpl; [|naive_solver].
  rewrite reverse_lookup_Some, (rect_lookup _ _ _ _ Hx Hrow).
  replace (n - S c)%nat with (n - 1 - c)%nat by lia. naive_solver.
Qed.

Lemma cellZ_nat x r c : cellZ x (Z.of_nat r) (Z.of_nat c) = cell x r c.
Proof. unfold cellZ. rewrite decide_True by lia. by rewrite !Nat2Z.id. Qed.

Lemma cellZ_Some x (r c : Z) u :
  cellZ x r c = Some u → 0 ≤ r < Z.of_nat (length x) ∧ 0 ≤ c.
Proof.
  unfold cellZ. case_decide; [|done]. intros (row & Hrow & _)%cell_Some.
  apply lookup_lt_Some in Hrow. lia.
Qed.

Lemma cellZ_Some_col n x (r c : Z) u :
  rect n x → cellZ x r c = Some u → c < Z.of_nat n.
Proof.
  intros Hx. unfold cellZ. case_decide; [|done]. intros (row & Hrow & Hc)%cell_Some.
  apply lookup_lt_Some in Hc. rewrite (rect_lookup _ _ _ _ Hx Hrow) in Hc. lia.
Qed.

Lemma fliplr_cellZ n x (r c : Z) u :
  rect n x →
  cellZ (np.fliplr x) r c = Some u ↔
  c < Z.of_nat n ∧ cellZ x r (Z.of_nat n - 1 - c) = Some u.
Proof.
  intros Hx. unfold cellZ. case_decide as Hrc.
  - rewrite (fliplr_cell n) by done. split.
    + intros [Hc Hu]. split; [lia|]. rewrite decide_True by lia.
      rewrite <-Hu. f_equal. lia.
    + intros [Hc Hu]. case_decide; [|done]. split; [lia|].
      rewrite <-Hu. f_equal. lia.
  - split; [done|]. intros [Hc Hu]. exfalso.
    assert (cellZ x r (Z.of_nat n - 1 - c) = Some u) as Hu'.
    { unfold cellZ. by case_decide. }
    pose proof (cellZ_Some _ _ _ _ Hu'). pose proof (cellZ_Some_col _ _ _ _ _ Hx Hu'). lia.
Qed.

End spaces.

Section lines_facts.
Implicit Types (x : np.ndarray) (row : list Z) (r c k n : nat) (v : Z).

Lemma four_true x v (r c dr dc : Z) : four x v r c dr dc = true ↔ fourP x v r c dr dc.
Proof.
  unfold four, fourP. change (seqZ 0 4) with [0; 1; 2; 3]. cbn [forallb].
  rewrite !andb_true_iff, !bool_decide_eq_true. split.
  - intros (H0 & H1 & H2 & H3 & _) d Hd.
    destruct d as [|[|[|[|d]]]]; [done..|lia].
  - intros H. split_and!; [apply (H 0%nat)|apply (H 1%nat)|apply (H 2%nat)|apply (H 3%nat)|done]; lia.
Qed.

Lemma existsb_seqZ (f : Z → bool) (m n : Z) :
  existsb f (seqZ m n) = true ↔ ∃ z, m ≤ z < m + n ∧ f z = true.
Proof.
  rewrite existsb_exists. apply exist_proper. intros z.
  by rewrite <-list_elem_of_In, elem_of_seqZ.
Qed.

Lemma vertical_match n x r c v :
  rect n x → (c < n)%nat →
  run4 v (col_of (py.slice x (Z.max (Z.of_nat r - 3) 0) (Z.of_nat r + 4)) c) ↔
  ∃ z, Z.of_nat r - 3 ≤ z < Z.of_nat r - 3 + 4 ∧ fourP x v z (Z.of_nat c) 1 0.
Proof.
  intros Hx Hc. unfold run4, fourP.
  setoid_rewrite (vertical_lookup n); [|done|done|lia..].
  set (a := Z.max (Z.of_nat r - 3) 0). split.
  - intros [k Hk]. exists (a + Z.of_nat k). split.
    + destruct (Hk 3%nat) as [? _]; lia.
    + intros d Hd. destruct (Hk d Hd) as [_ <-].
      replace (a + Z.of_nat k + Z.of_nat d * 1) with (Z.of_nat (Z.to_nat a + (k + d))) by lia.
      replace (Z.of_nat c + Z.of_nat d * 0) with (Z.of_nat c) by lia.
      apply cellZ_nat.
  - intros (z & Hz & Hcells).
    pose proof (cellZ_Some _ _ _ _ (Hcells 0%nat ltac:(lia))) as [? _].
    exists (Z.to_nat (z - a)). intros d Hd. split; [lia|].
    rewrite <-(Hcells d Hd), <-cellZ_nat. f_equal; lia.
Qed.

Lemma horizontal_match x r c v row :
  x !! r = Some row →
  run4 v (py.slice row (Z.max (Z.of_nat c - 3) 0) (Z.of_nat c + 4)) ↔
  ∃ z, Z.of_nat c - 3 ≤ z < Z.of_nat c - 3 + 4 ∧ fourP x v (Z.of_nat r) z 0 1.
Proof.
  intros Hrow. unfold run4, fourP.
  setoid_rewrite slice_lookup; [|lia..].
  set (a := Z.max (Z.of_nat c - 3) 0).
  assert (∀ z, 0 ≤ z → cellZ x (Z.of_nat r) z = row !! Z.to_nat z) as Hcell.
  { intros z Hz. rewrite <-(Z2Nat.id z) at 1 by done.
    by rewrite cellZ_nat, (cell_lookup _ _ _ row). }
  split.
  - intros [k Hk]. exists (a + Z.of_nat k). split.
    + destruct (Hk 3%nat) as [? _]; lia.
    + intros d Hd. destruct (Hk d Hd) as [_ <-].
      replace (Z.of_nat r + Z.of_nat d * 0) with (Z.of_nat r) by lia.
      rewrite Hcell by lia. f_equal. lia.
  - intros (z & Hz & Hcells).
    pose proof (cellZ_Some _ _ _ _ (Hcells 0%nat ltac:(lia))) as [_ ?].
    exists (Z.to_nat (z - a)). intros d Hd. split; [lia|].
    rewrite <-(Hcells d Hd).
    replace (Z.of_nat r + Z.of_nat d * 0) with (Z.of_nat r) by lia.
    rewrite Hcell by lia. f_equal. lia.
Qed.

Lemma diagonal_match n x (offset : Z) v :
  rect n x →
  run4 v (np.diagonal x offset) ↔
  ∃ z, 0 ≤ z < 0 + Z.of_nat (length x) ∧ fourP x v z (z + offset) 1 1.
Proof.
  intros Hx. unfold run4, fourP.
  setoid_rewrite (diagonal_lookup n); [|done]. split.
  - intros [k Hk]. exists (Z.of_nat k + Z.max 0 (- offset)). split.
    + pose proof (cellZ_Some _ _ _ _ (Hk 0%nat ltac:(lia))). lia.
    + intros d Hd. rewrite <-(Hk d Hd). f_equal; lia.
  - intros (z & Hz & Hcells).
    pose proof (cellZ_Some _ _ _ _ (Hcells 0%nat ltac:(lia))) as [_ ?].
    exists (Z.to_nat (z - Z.max 0 (- offset))). intros d Hd.
    rewrite <-(Hcells d Hd). f_equal; lia.
Qed.

Lemma antidiagonal_match n x (offset : Z) v :
  rect n x →
  run4 v (np.diagonal (np.fliplr x) offset) ↔
  ∃ z, 0 ≤ z < 0 + Z.of_nat (length x) ∧
        fourP x v z (Z.of_nat n - 1 - offset - z) 1 (-1).
Proof.
  intros Hx. unfold run4, fourP.
  setoid_rewrite (diagonal_lookup n); [|by apply fliplr_rect].
  setoid_rewrite (fliplr_cellZ n); [|done]. split.
  - intros [k Hk]. exists (Z.of_nat k + Z.max 0 (- offset)). split.
    + destruct (Hk 0%nat ltac:(lia)) as [_ H0]. apply cellZ_Some in H0. lia.
    + intros d Hd. destruct (Hk d Hd) as [_ <-]. f_equal; lia.
  - intros (z & Hz & Hcells).
    pose proof (cellZ_Some_col _ _ _ _ _ Hx (Hcells 0%nat ltac:(lia))).
    exists (Z.to_nat (z - Z.max 0 (- offset))). intros d Hd.
    pose proof (cellZ_Some _ _ _ _ (Hcells d Hd)) as [_ ?].
    split; [lia|]. rewrite <-(Hcells d Hd). f_equal; lia.
Qed.

End lines_facts.

Section win_check.
Implicit Types (w : World) (x : np.ndarray) (row : list Z) (v : Z).

Lemma col_of_cells x (c : nat) : Forall (Forall is_cell) x → Forall is_cell (col_of x c).
Proof.
  intros Hx. unfold col_of. apply Forall_fmap.
  eapply Forall_impl; [exact Hx|]. intros row Hrow. simpl.
  destruct (row !! c) as [u|] eqn:Hu; simpl; [|by left].
  by eapply (Forall_lookup_1 _ _ _ _ Hrow Hu).
Qed.

Lemma slice_Forall {A} (P : A → Prop) (l : list A) (a b : Z) :
  Forall P l → Forall P (py.slice l a b).
Proof. intros Hl. unfold py.slice. by apply Forall_take, Forall_drop. Qed.

Lemma diag_from_cells x (c : nat) :
  Forall (Forall is_cell) x → Forall is_cell (np.diag_from x c).
Proof.
  intros Hx. revert c. induction Hx as [|row x Hrow Hx IH]; intros c; simpl; [done|].
  destruct (row !! c) as [u|] eqn:Hu; [|done].
  constructor; [|apply IH]. by eapply (Forall_lookup_1 _ _ _ _ Hrow Hu).
Qed.

Lemma diagonal_cells x (offset : Z) :
  Forall (Forall is_cell) x → Forall is_cell (np.diagonal x offset).
Proof.
  intros Hx. unfold np.diagonal. case_decide; apply diag_from_cells; [done|].
  by apply Forall_drop.
Qed.

Lemma fliplr_cells x : Forall (Forall is_cell) x → Forall (Forall is_cell) (np.fliplr x).
Proof.
  intros Hx. unfold np.fliplr. apply Forall_fmap.
  eapply Forall_impl; [exact Hx|]. intros row Hrow. simpl. by apply Forall_reverse.
Qed.

(** What the check for a winner computes: the segment of the column, the
    segment of the row and the diagonal through the cell, and the
    anti-diagonal whose coordinates add up to
    [i + j + (columns - 1 - rows)]. *)
Lemma wins_lines n x (r c : nat) v row :
  rect n x → Forall (Forall is_cell) x → x !! r = Some row → (c < n)%nat → is_cell v →
  wins x r c v
  = lines x v (Z.of_nat r) (Z.of_nat c)
      (Z.of_nat r + Z.of_nat c + (Z.of_nat n - 1 - Z.of_nat (length x))).
Proof.
  intros Hx Hcells Hrow Hc Hv. unfold wins, lines.
  rewrite (spaces_to_check_nat n x r c row) by done.
  cbn [existsb]. rewrite orb_false_r, !orb_assoc.
  apply eq_true_iff_eq. rewrite !orb_true_iff.
  assert (∀ space, Forall is_cell space →
            space_matches (pattern v) space = true ↔ run4 v space) as Hm.
  { intros space Hspace. by apply space_matches_spec. }
  rewrite (Hm (col_of _ c)) by (by apply col_of_cells, slice_Forall).
  rewrite (Hm (py.slice row _ _))
    by (apply slice_Forall; by eapply (Forall_lookup_1 _ _ _ _ Hcells Hrow)).
  rewrite (Hm (np.diagonal x _)) by (by apply diagonal_cells).
  rewrite (Hm (np.diagonal (np.fliplr x) _)) by (by apply diagonal_cells, fliplr_cells).
  rewrite (vertical_match n), (horizontal_match x r c v row), (diagonal_match n),
    (antidiagonal_match n) by done.
  rewrite !existsb_seqZ. setoid_rewrite four_true.
  replace (Z.of_nat n - 1 - (Z.of_nat (length x) - (Z.of_nat r + Z.of_nat c)))
    with (Z.of_nat r + Z.of_nat c + (Z.of_nat n - 1 - Z.of_nat (length x))) by lia.
  done.
Qed.

End win_check.

(** What an accepted play decides about the winner, on a board of any
    shape: the mover wins exactly when four of their pieces are consecutive
    on the column segment, the row segment or the diagonal through the piece
    just placed at [(i, j)], or on the anti-diagonal of the cells whose
    coordinates add up to [i + j + (columns - 1 - rows)]. *)
Lemma play_win_check w move draw w' :
  reachable w → play move draw w = (Ok tt, w') →
  ∃ c : nat,
    last_play (self w') = Some (Z.of_nat c) ∧
    grid w' = set_cell (grid w) (landing w c) c (value (current_player (self w))) ∧
    winner_ (self w') =
      if lines (grid w') (value (current_player (self w)))
           (Z.of_nat (landing w c)) (Z.of_nat c)
           (Z.of_nat (landing w c) + Z.of_nat c
            + (Z.of_nat (board_size (self w)).2 - 1 - Z.of_nat (board_size (self w)).1))
      then Some (current_player (self w)) else None.
Proof.
  intros Hw%reachable_wf Hplay.
  destruct (play_Ok_inv _ _ _ _ Hw Hplay) as (c & Hsel & Hc & H0 & ->).
  pose proof (legal_no_winner _ _ (selected_legal _ _ _ _ Hsel)) as Hnone.
  assert (wf (play_result w c)) as Hw' by (by apply play_result_wf).
  destruct (landing_column _ _ Hw Hc H0) as (_ & _ & row & Hlook & Hcell).
  exists c. split_and!; [done|by apply grid_play_result|].
  assert (is_cell (value (current_player (self w)))) as Hv.
  { destruct (current_value _ Hw) as [-> | ->]; unfold is_cell; auto. }
  assert (grid (play_result w c) !! landing w c
          = Some (<[c := value (current_player (self w))]> row)) as Hlook'.
  { rewrite grid_play_result by done. unfold set_cell. rewrite Hlook. simpl.
    apply list_lookup_insert_eq. by eapply lookup_lt_Some. }
  pose proof (wf_rect _ Hw') as Hrect'. pose proof (wf_rows _ Hw') as Hrows'.
  pose proof (wf_cells _ Hw') as Hcells'.
  change (board_size (self (play_result w c))) with (board_size (self w)) in Hrect', Hrows'.
  rewrite <-Hrows'.
  rewrite <-(wins_lines _ _ _ _ _ _ Hrect' Hcells' Hlook' Hc Hv).
  rewrite grid_play_result by done. simpl.
  destruct (wins _ _ _ _); [done|]. by rewrite Hnone.
Qed.

(** X8: on the boards that are one column wider than high (the default 6x7
    board is one) the anti-diagonal inspected is the one through the piece
    just placed: the mover wins exactly when one of the four lines through
    that piece holds four of their pieces in a row; otherwise no winner is
    set. *)
Lemma play_win_check_default_shape w move draw w' :
  reachable w → (board_size (self w)).2 = S (board_size (self w)).1 →
  play move draw w = (Ok tt, w') →
  ∃ c : nat,
    last_play (self w') = Some (Z.of_nat c) ∧
    grid w' = set_cell (grid w) (landing w c) c (value (current_player (self w))) ∧
    winner_ (self w') =
      if line_win (grid w') (value (current_player (self w)))
           (Z.of_nat (landing w c)) (Z.of_nat c)
      then Some (current_player (self w)) else None.
Proof.
  intros Hw Hshape Hplay.
  destruct (play_win_check _ _ _ _ Hw Hplay) as (c & Hlast & Hgrid & Hwin).
  exists c. split_and!; [done..|]. rewrite Hwin. unfold line_win. rewrite Hshape.
  by replace (Z.of_nat (landing w c) + Z.of_nat c
              + (Z.of_nat (S (board_size (self w)).1) - 1 - Z.of_nat (board_size (self w)).1))
    with (Z.of_nat (landing w c) + Z.of_nat c) by lia.
Qed.


(** * Further properties of the engine *)

(** ** Steps of a game *)

Section steps.
Implicit Types (w : World) (o : op) (x : np.ndarray).

(** An operation that applied a move is a call of [play], on a game without
    winner, that dropped a piece into a column with an empty cell. *)
Lemma accepted_inv o w :
  wf w → accepted o w = true →
  ∃ move draw c,
    o = op_play move draw ∧
    selected move draw (legal_list w) = inr (Z.of_nat c) ∧
    (c < (board_size (self w)).2)%nat ∧ 0 ∈ col_of (grid w) c ∧
    winner_ (self w) = None ∧
    play move draw w = (Ok tt, play_result w c) ∧
    exec o w = play_result w c.
Proof.
  intros Hw Hacc. destruct o as [| |move draw]; simpl in Hacc; [done..|].
  destruct (play move draw w) as [[[]|e] w'] eqn:Hplay; [|done].
  destruct (play_Ok_inv _ _ _ _ Hw Hplay) as (c & Hsel & Hc & H0 & ->).
  exists move, draw, c. split_and!; [done..| |done|by simpl; rewrite Hplay].
  by eapply legal_no_winner, selected_legal.
Qed.

(** The cell a play into column [c] writes. *)
Lemma landing_cell w c :
  wf w → (c < (board_size (self w)).2)%nat → 0 ∈ col_of (grid w) c →
  (landing w c < (board_size (self w)).1)%nat ∧
  cell (grid w) (landing w c) c = Some 0.
Proof.
  intros Hw Hc H0.
  destruct (landing_column _ _ Hw Hc H0) as (_ & _ & row & Hlook & Hcell).
  split; [|by rewrite (cell_lookup _ _ _ _ Hlook)].
  rewrite <-(wf_rows _ Hw). by eapply lookup_lt_Some.
Qed.

Lemma cell_play_result w c r' c' :
  wf w → (c < (board_size (self w)).2)%nat → 0 ∈ col_of (grid w) c →
  cell (grid (play_result w c)) r' c' =
    if decide ((r', c') = (landing w c, c))
    then Some (value (current_player (self w)))
    else cell (grid w) r' c'.
Proof.
  intros Hw Hc H0. rewrite grid_play_result by done.
  destruct (landing_column _ _ Hw Hc H0) as (_ & _ & row & Hlook & Hcell).
  pose proof (rect_lookup _ _ _ _ (wf_rect _ Hw) Hlook) as Hlen.
  case_decide as Heq.
  - simplify_eq. apply (set_cell_same _ _ _ _ row); [done|lia].
  - by apply set_cell_other.
Qed.

Lemma current_value_ne_0 w : wf w → value (current_player (self w)) ≠ 0.
Proof. intros Hw. destruct (current_value _ Hw) as [-> | ->]; done. Qed.

Lemma occupied_le n x : rect n x → (occupied x ≤ length x * n)%nat.
Proof.
  unfold occupied. induction 1 as [|row x Hrow Hx IH]; csimpl; [lia|].
  pose proof (length_filter (λ v, v ≠ 0) row) as Hle. simpl in Hrow.
  unfold nz at 1. lia.
Qed.

Lemma reaches_occupied shape keep n w :
  reaches shape keep n w → occupied (grid w) = n.
Proof.
  induction 1 as [w Hw|n w o Hw IH].
  - rewrite Game_init_eq in Hw. simplify_eq. unfold grid, deref, occupied, np.zeros. simpl.
    rewrite fmap_replicate, nz_replicate_0, sum_list_replicate. lia.
  - pose proof (reaches_wf _ _ _ _ Hw) as Hwf.
    destruct (accepted o w) eqn:Hacc; [|by rewrite exec_not_accepted].
    destruct (accepted_inv _ _ Hwf Hacc) as (move & draw & c & _ & _ & Hc & H0 & _ & _ & ->).
    destruct (landing_column _ _ Hwf Hc H0) as (_ & _ & row & Hlook & Hcell).
    rewrite grid_play_result by done.
    rewrite (occupied_set_cell _ _ _ _ row); [by rewrite IH|done..|].
    by apply current_value_ne_0.
Qed.

End steps.

(** ** The board *)

(** X1: the grid of a game always has the shape given at construction, and
    its cells hold 0, 1 or 2 only. *)
Theorem reachable_grid_shape shape keep n w :
  reaches shape keep n w →
  board_size (self w) = shape ∧
  length (grid w) = shape.1 ∧
  (∀ row, row ∈ grid w → length row = shape.2) ∧
  (∀ r c, is_Some (cell (grid w) r c) ↔ (r < shape.1)%nat ∧ (c < shape.2)%nat) ∧
  (∀ r c v, cell (grid w) r c = Some v → v = 0 ∨ v = 1 ∨ v = 2).
Proof.
  intros Hreach. pose proof (reaches_wf _ _ _ _ Hreach) as Hw.
  destruct (reaches_config _ _ _ _ Hreach) as [Hshape _].
  pose proof (wf_rows _ Hw) as Hrows. pose proof (wf_rect _ Hw) as Hrect.
  rewrite Hshape in Hrows, Hrect. split_and!; [done..| | |].
  - intros row Hrow. unfold rect in Hrect. rewrite Forall_forall in Hrect. by apply Hrect.
  - intros r c. split.
    + intros [v (row & Hrow & Hv)%cell_Some].
      pose proof (rect_lookup _ _ _ _ Hrect Hrow). apply lookup_lt_Some in Hrow, Hv. lia.
    + intros [Hr Hc]. destruct (lookup_lt_is_Some_2 (grid w) r) as [row Hrow]; [lia|].
      pose proof (rect_lookup _ _ _ _ Hrect Hrow).
      destruct (lookup_lt_is_Some_2 row c) as [v Hv]; [lia|].
      exists v. apply cell_Some. eauto.
  - intros r c v (row & Hrow & Hv)%cell_Some.
    pose proof (Forall_lookup_1 _ _ _ _ (wf_cells _ Hw) Hrow) as Hcells.
    apply (Forall_lookup_1 _ _ _ _ Hcells Hv).
Qed.

Lemma reachable_grid_shape_witness :
  reaches (6, 7)%nat true 0 (new_game (6, 7)%nat true) ∧
  length (grid (new_game (6, 7)%nat true)) = 6%nat.
Proof.
  split; [by constructor|].
  apply (reachable_grid_shape (6, 7)%nat true 0 (new_game (6, 7)%nat true)).
  by constructor.
Defined.

(** X2: pieces never float: in every reachable state, below an occupied cell
    every cell of the column is occupied. *)
Theorem reachable_gravity w r r' c v :
  reachable w → cell (grid w) r c = Some v → v ≠ 0 →
  (r < r' < (board_size (self w)).1)%nat →
  ∃ v', cell (grid w) r' c = Some v' ∧ v' ≠ 0.
Proof.
  intros Hw%reachable_wf Hcell Hv Hr'.
  pose proof (wf_rect _ Hw) as Hrect. pose proof (wf_rows _ Hw) as Hrows.
  assert (c < (board_size (self w)).2)%nat as Hc.
  { apply cell_Some in Hcell as (row & Hrow & Hcv).
    rewrite <-(rect_lookup _ _ _ _ Hrect Hrow). by eapply lookup_lt_Some. }
  pose proof (wf_stacked _ Hw c Hc) as Hst.
  apply (col_of_cell _ _ _ _ _ Hrect Hc) in Hcell.
  pose proof (stacked_lookup _ _ _ Hst Hcell) as Hiff.
  destruct (lookup_lt_is_Some_2 (col_of (grid w) c) r') as [v' Hv'].
  { rewrite col_of_length. lia. }
  exists v'. split; [by apply (col_of_cell _ _ _ _ _ Hrect Hc)|].
  pose proof (stacked_lookup _ _ _ Hst Hv') as Hiff'. intros ->.
  assert (r' < length (col_of (grid w) c) - nz (col_of (grid w) c))%nat by (by apply Hiff').
  apply Hv, Hiff. lia.
Qed.

Lemma reachable_gravity_witness :
  ∃ v', cell (grid (run vertical_win (new_game (6, 7)%nat true))) 4 3 = Some v' ∧ v' ≠ 0.
Proof.
  apply (reachable_gravity (run vertical_win (new_game (6, 7)%nat true)) 2 4 3 1).
  - apply reachable_run, reachable_new.
  - vm_compute. reflexivity.
  - done.
  - vm_compute. split; lia.
Defined.

(** X3: while there is no winner, the columns [legal_plays()] returns are
    exactly the columns of the board whose topmost cell is empty. *)
Theorem legal_iff_top_empty w l j :
  reachable w → winner w = (Ok None, w) → legal_plays w = (Ok l, w) →
  j ∈ l ↔ ∃ c : nat, j = Z.of_nat c ∧ cell (grid w) 0 c = Some 0.
Proof.
  intros Hw%reachable_wf. rewrite winner_run, legal_plays_run.
  intros [= Hnone] [= <-]. rewrite legal_list_elem_of by done.
  pose proof (wf_rect _ Hw) as Hrect. split.
  - intros (c & r & -> & Hcell). exists c. split; [done|].
    assert (c < (board_size (self w)).2)%nat as Hc.
    { apply cell_Some in Hcell as (row & Hrow & Hcv).
      rewrite <-(rect_lookup _ _ _ _ Hrect Hrow). by eapply lookup_lt_Some. }
    pose proof (wf_stacked _ Hw c Hc) as Hst.
    apply (col_of_cell _ _ _ _ _ Hrect Hc) in Hcell.
    pose proof (lookup_lt_Some _ _ _ Hcell) as Hlen.
    destruct (lookup_lt_is_Some_2 (col_of (grid w) c) 0) as [u Hu]; [lia|].
    apply (col_of_cell _ _ _ _ _ Hrect Hc).
    assert (u = 0) as ->; [|done].
    apply (stacked_lookup _ _ _ Hst Hu).
    assert (r < length (col_of (grid w) c) - nz (col_of (grid w) c))%nat
      by (by apply (stacked_lookup _ _ _ Hst Hcell)).
    lia.
  - intros (c & -> & Hcell). by exists c, 0%nat.
Qed.

Lemma legal_iff_top_empty_witness :
  3 ∈ [0; 1; 2; 3; 4; 5; 6] ↔
  ∃ c : nat, 3 = Z.of_nat c ∧ cell (grid (new_game (6, 7)%nat true)) 0 c = Some 0.
Proof.
  apply (legal_iff_top_empty (new_game (6, 7)%nat true) [0; 1; 2; 3; 4; 5; 6] 3);
    [apply reachable_new|reflexivity..].
Defined.

(** X4: the number of occupied cells is the number of moves applied so far;
    a game therefore applies at most rows x columns moves. *)
Theorem moves_count_occupied shape keep n w :
  reaches shape keep n w →
  occupied (grid w) = n ∧ (n ≤ shape.1 * shape.2)%nat.
Proof.
  intros Hreach. pose proof (reaches_occupied _ _ _ _ Hreach) as Hocc.
  split; [done|]. pose proof (reaches_wf _ _ _ _ Hreach) as Hw.
  destruct (reaches_config _ _ _ _ Hreach) as [Hshape _].
  pose proof (occupied_le _ _ (wf_rect _ Hw)) as Hle.
  rewrite (wf_rows _ Hw), Hshape, Hocc in Hle. done.
Qed.

Lemma moves_count_occupied_witness :
  reaches (6, 7)%nat true 1 (exec (op_play (Some 3) 0) (new_game (6, 7)%nat true)) ∧
  occupied (grid (exec (op_play (Some 3) 0) (new_game (6, 7)%nat true))) = 1%nat ∧
  (1 ≤ 6 * 7)%nat.
Proof.
  assert (reaches (6, 7)%nat true 1 (exec (op_play (Some 3) 0) (new_game (6, 7)%nat true)))
    as Hreach.
  { apply (reaches_step (6, 7)%nat true 0 (new_game (6, 7)%nat true) (op_play (Some 3) 0)).
    by apply reaches_init. }
  split; [exact Hreach|].
  exact (moves_count_occupied (6, 7)%nat true 1 _ Hreach).
Defined.

(** ** The pieces of the two players *)

Section pieces.
Implicit Types (w : World) (x : np.ndarray) (row : list Z) (u v : Z).

Lemma count_insert row (c : nat) u u' v :
  row !! c = Some u →
  (length (filter (λ t, t = v) (<[c := u']> row)) + (if decide (u = v) then 1 else 0)
   = length (filter (λ t, t = v) row) + (if decide (u' = v) then 1 else 0))%nat.
Proof.
  revert c. induction row as [|t row IH]; intros [|c] Hc; simplify_eq/=.
  - rewrite !filter_cons. repeat case_decide; simpl; lia.
  - specialize (IH _ Hc). rewrite !filter_cons. repeat case_decide; simpl in *; lia.
Qed.

Lemma count_value_set_cell x (r c : nat) row u u' v :
  x !! r = Some row → row !! c = Some u →
  (count_value v (set_cell x r c u') + (if decide (u = v) then 1 else 0)
   = count_value v x + (if decide (u' = v) then 1 else 0))%nat.
Proof.
  intros Hr Hc. unfold count_value, set_cell. rewrite Hr. simpl.
  revert r Hr. induction x as [|row' x IH]; intros [|r] Hr; simplify_eq/=.
  - pose proof (count_insert _ _ _ u' v Hc). lia.
  - specialize (IH _ Hr). lia.
Qed.

Lemma count_value_zeros shape v : v ≠ 0 → count_value v (np.zeros shape) = 0%nat.
Proof.
  intros Hv. unfold count_value, np.zeros. rewrite fmap_replicate.
  assert (filter (λ u, u = v) (replicate shape.2 0) = []) as ->.
  { induction shape.2 as [|k IH]; [done|]. simpl.
    rewrite filter_cons_False by (intros ?; by apply Hv). done. }
  rewrite sum_list_replicate. simpl. lia.
Qed.

Lemma count_value_play_result w c v :
  wf w → (c < (board_size (self w)).2)%nat → 0 ∈ col_of (grid w) c → v ≠ 0 →
  count_value v (grid (play_result w c))
  = (count_value v (grid w)
     + (if decide (value (current_player (self w)) = v) then 1 else 0))%nat.
Proof.
  intros Hw Hc H0 Hv. rewrite grid_play_result by done.
  destruct (landing_column _ _ Hw Hc H0) as (_ & _ & row & Hlook & Hcell).
  pose proof (count_value_set_cell _ _ _ _ 0 (value (current_player (self w))) v Hlook Hcell)
    as Heq.
  rewrite decide_False in Heq by done. lia.
Qed.

End pieces.

(** X5: after [n] applied moves player A has as many pieces on the board as
    player B when [n] is even and one more when [n] is odd; while nobody has
    won the turn is A's exactly when [n] is even; and a winner is always the
    current player, the one who made the last move. *)
Theorem piece_balance shape keep n w :
  reaches shape keep n w →
  (count_value 1 (grid w) + count_value 2 (grid w) = n)%nat ∧
  (count_value 1 (grid w) = count_value 2 (grid w) + (if Nat.even n then 0 else 1))%nat ∧
  match winner_ (self w) with
  | None => current_player (self w) = if Nat.even n then player_A else player_B
  | Some p =>
      p = current_player (self w) ∧
      current_player (self w) = if Nat.even n then player_B else player_A
  end.
Proof.
  induction 1 as [w Hw|n w o Hreach IH].
  - rewrite Game_init_eq in Hw. simplify_eq. unfold grid, deref. simpl.
    by rewrite !count_value_zeros.
  - pose proof (reaches_wf _ _ _ _ Hreach) as Hw.
    destruct (accepted o w) eqn:Hacc; [|by rewrite exec_not_accepted].
    destruct (accepted_inv _ _ Hw Hacc)
      as (move & draw & c & _ & _ & Hc & H0 & Hnone & _ & ->).
    destruct IH as (Hsum & Hdiff & Hturn). rewrite Hnone in Hturn.
    rewrite !count_value_play_result by done.
    rewrite Nat.even_succ, <-Nat.negb_even.
    assert (winner_ (self (play_result w c)) = None ∧
              current_player (self (play_result w c)) = other (current_player (self w)) ∨
            winner_ (self (play_result w c)) = Some (current_player (self w)) ∧
              current_player (self (play_result w c)) = current_player (self w)) as Hcases.
    { simpl. destruct (wins _ _ _ _); [by right|left]. split; [done|].
      destruct (wf_turn _ Hw) as [[Hp Hgen]|[Hp Hgen]]; by rewrite Hgen, Hp. }
    destruct Hcases as [[-> ->]|[-> ->]];
      destruct (Nat.even n); rewrite Hturn in *; simpl; split_and!; first [lia | done].
Qed.

Lemma piece_balance_witness :
  reaches (6, 7)%nat true 1 (exec (op_play (Some 3) 0) (new_game (6, 7)%nat true)) ∧
  current_player (self (exec (op_play (Some 3) 0) (new_game (6, 7)%nat true))) = player_B.
Proof.
  assert (reaches (6, 7)%nat true 1 (exec (op_play (Some 3) 0) (new_game (6, 7)%nat true)))
    as Hreach.
  { apply (reaches_step (6, 7)%nat true 0 (new_game (6, 7)%nat true) (op_play (Some 3) 0)).
    by apply reaches_init. }
  split; [exact Hreach|].
  exact (proj2 (proj2 (piece_balance (6, 7)%nat true 1 _ Hreach))).
Defined.

(** ** Winning positions *)

Section winning.
Implicit Types (w : World) (x : np.ndarray) (v : Z).

Lemma lines_four x v (i j anti : Z) :
  lines x v i j anti = true →
  ∃ (a b : Z) (d : Z * Z), d ∈ directions ∧ fourP x v a b d.1 d.2.
Proof.
  unfold lines. rewrite !orb_true_iff, !existsb_seqZ.
  intros [[[(z & _ & H4)|(z & _ & H4)]|(z & _ & H4)]|(z & _ & H4)];
    apply four_true in H4.
  - exists z, j, (1, 0). split; [|done]. unfold directions.
    repeat first [apply list_elem_of_here | apply list_elem_of_further].
  - exists i, z, (0, 1). split; [|done]. unfold directions.
    repeat first [apply list_elem_of_here | apply list_elem_of_further].
  - exists z, (z + (j - i)), (1, 1). split; [|done]. unfold directions.
    repeat first [apply list_elem_of_here | apply list_elem_of_further].
  - exists z, (anti - z), (1, -1). split; [|done]. unfold directions.
    repeat first [apply list_elem_of_here | apply list_elem_of_further].
Qed.

(** The cell an accepted play wrote is the only cell that went from empty
    to the mover's value. *)
Lemma placed_cell_unique w c (i j : nat) :
  wf w → (c < (board_size (self w)).2)%nat → 0 ∈ col_of (grid w) c →
  cell (grid w) i j = Some 0 →
  cell (grid (play_result w c)) i j = Some (value (current_player (self w))) →
  i = landing w c ∧ j = c.
Proof.
  intros Hw Hc H0 Hbefore Hafter.
  rewrite cell_play_result in Hafter by done. case_decide as Heq; [by simplify_eq|].
  rewrite Hbefore in Hafter. simplify_eq. by destruct (current_value_ne_0 _ Hw).
Qed.

End winning.

(** X6: there is never a winner without four in a row: on a board of any
    shape, when [winner()] is a player, four consecutive cells of a column, a
    row, a diagonal or an anti-diagonal hold that player's value. *)
Theorem winner_has_four w p :
  reachable w → winner w = (Ok (Some p), w) →
  ∃ (a b : Z) (d : Z * Z), d ∈ directions ∧ fourP (grid w) (value p) a b d.1 d.2.
Proof.
  intros (shape & keep & n & Hreach). rewrite winner_run. intros [= Hp].
  revert p Hp. induction Hreach as [w Hw|n w o Hreach IH]; intros p Hp.
  - rewrite Game_init_eq in Hw. by simplify_eq.
  - pose proof (reaches_wf _ _ _ _ Hreach) as Hw.
    destruct (accepted o w) eqn:Hacc; [|rewrite exec_not_accepted in * by done; by apply IH].
    destruct (accepted_inv _ _ Hw Hacc)
      as (move & draw & c & _ & _ & Hc & H0 & Hnone & Hplay & Hexec).
    assert (reachable w) as Hreachable by (by exists shape, keep, n).
    destruct (play_win_check _ _ _ _ Hreachable Hplay) as (c' & _ & _ & Hwin).
    rewrite Hexec in *. rewrite Hwin in Hp.
    destruct (lines _ _ _ _ _) eqn:Hlines; [|done].
    simplify_eq. by eapply lines_four.
Qed.

Lemma winner_has_four_witness :
  ∃ (a b : Z) (d : Z * Z),
    d ∈ directions ∧
    fourP (grid (run vertical_win (new_game (6, 7)%nat true))) (value player_A) a b d.1 d.2.
Proof.
  apply (winner_has_four (run vertical_win (new_game (6, 7)%nat true)) player_A).
  - apply reachable_run, reachable_new.
  - vm_compute. reflexivity.
Defined.

(** X7: on a board of any shape, a move that completes four in a row
    through the piece it places, along the column, the row or the diagonal
    (down-right), makes the mover the winner. *)
Theorem three_directions_detected w move draw w' (i j : nat) (a b : Z) (d : Z * Z) (k : nat) :
  reachable w → play move draw w = (Ok tt, w') →
  cell (grid w) i j = Some 0 →
  cell (grid w') i j = Some (value (current_player (self w))) →
  d ∈ [(1, 0); (0, 1); (1, 1)] →
  fourP (grid w') (value (current_player (self w))) a b d.1 d.2 →
  (k < 4)%nat → a + Z.of_nat k * d.1 = Z.of_nat i → b + Z.of_nat k * d.2 = Z.of_nat j →
  winner_ (self w') = Some (current_player (self w)).
Proof.
  intros Hreach Hplay Hbefore Hafter Hd H4 Hk Hi Hj.
  pose proof (reachable_wf _ Hreach) as Hw.
  destruct (play_win_check _ _ _ _ Hreach Hplay) as (c & Hlast & _ & ->).
  destruct (play_Ok_inv _ _ _ _ Hw Hplay) as (c' & Hsel & Hc & H0 & ->).
  simpl in Hlast. apply (inj Some), (inj Z.of_nat) in Hlast as <-.
  destruct (placed_cell_unique w c' i j Hw Hc H0 Hbefore Hafter) as [-> ->].
  assert (lines (grid (play_result w c')) (value (current_player (self w)))
            (Z.of_nat (landing w c')) (Z.of_nat c')
            (Z.of_nat (landing w c') + Z.of_nat c'
             + (Z.of_nat (board_size (self w)).2 - 1 - Z.of_nat (board_size (self w)).1))
          = true) as ->; [|done].
  unfold lines. rewrite !orb_true_iff, !existsb_seqZ.
  pose proof (cellZ_Some _ _ _ _ (H4 0%nat ltac:(lia))) as Hrange.
  apply elem_of_cons in Hd as [->|Hd]; [|apply elem_of_cons in Hd as [->|Hd];
    [|apply elem_of_cons in Hd as [->|Hd]; [|by apply elem_of_nil in Hd]]];
    cbn [fst snd] in *.
  - left; left; left. exists a. split; [lia|].
    apply four_true. by replace (Z.of_nat c') with b by lia.
  - left; left; right. exists b. split; [lia|].
    apply four_true. by replace (Z.of_nat (landing w c')) with a by lia.
  - left; right. exists a. split; [lia|].
    apply four_true.
    by replace (a + (Z.of_nat c' - Z.of_nat (landing w c'))) with b by lia.
Qed.

Lemma three_directions_detected_witness :
  winner_ (self (run vertical_win (new_game (6, 7)%nat true)))
  = Some (current_player (self (run (take 6 vertical_win) (new_game (6, 7)%nat true)))).
Proof.
  apply (three_directions_detected (run (take 6 vertical_win) (new_game (6, 7)%nat true))
           (Some 3) 0%nat (run vertical_win (new_game (6, 7)%nat true)) 2 3 2 3 (1, 0) 0).
  - apply reachable_run, reachable_new.
  - vm_compute. reflexivity.
  - vm_compute. reflexivity.
  - vm_compute. reflexivity.
  - left.
  - intros d Hd. destruct d as [|[|[|[|d]]]]; [vm_compute; reflexivity..|lia].
  - lia.
  - reflexivity.
  - reflexivity.
Defined.

(** The check of the first move of a default game. *)
Lemma play_win_check_default_shape_witness :
  ∃ c : nat,
    last_play (self (play (Some 3) 0 (new_game (6, 7)%nat true)).2) = Some (Z.of_nat c) ∧
    grid (play (Some 3) 0 (new_game (6, 7)%nat true)).2
      = set_cell (grid (new_game (6, 7)%nat true)) (landing (new_game (6, 7)%nat true) c) c
          (value (current_player (self (new_game (6, 7)%nat true)))) ∧
    winner_ (self (play (Some 3) 0 (new_game (6, 7)%nat true)).2) =
      if line_win (grid (play (Some 3) 0 (new_game (6, 7)%nat true)).2)
           (value (current_player (self (new_game (6, 7)%nat true))))
           (Z.of_nat (landing (new_game (6, 7)%nat true) c)) (Z.of_nat c)
      then Some (current_player (self (new_game (6, 7)%nat true))) else None.
Proof.
  apply (play_win_check_default_shape (new_game (6, 7)%nat true) (Some 3) 0%nat);
    [apply reachable_new|reflexivity|reflexivity].
Defined.

(** ** Random and explicit moves *)

(** X9: a random move has the effect of the explicit move into the column it
    records: playing [last_play] explicitly from the same state gives the
    same state, whatever the generator does. *)
Theorem random_play_as_explicit w draw w' :
  reachable w → play None draw w = (Ok tt, w') →
  ∃ j, last_play (self w') = Some j ∧
       ∀ draw', play (Some j) draw' w = (Ok tt, w').
Proof.
  intros Hw%reachable_wf Hplay.
  destruct (play_Ok_inv _ _ _ _ Hw Hplay) as (c & Hsel & Hc & H0 & ->).
  exists (Z.of_nat c). split; [done|]. intros draw'.
  pose proof (selected_legal _ _ _ _ Hsel) as Hin.
  assert (selected (Some (Z.of_nat c)) draw' (legal_list w) = inr (Z.of_nat c)) as Hsel'.
  { unfold selected. by rewrite bool_decide_eq_true_2. }
  destruct (play_accepted _ _ _ _ Hw Hsel') as (c' & Heq & _ & _ & ->).
  by apply (inj Z.of_nat) in Heq as <-.
Qed.

Lemma random_play_as_explicit_witness :
  ∃ j, last_play (self (play None 12 (new_game (6, 7)%nat true)).2) = Some j ∧
       ∀ draw', play (Some j) draw' (new_game (6, 7)%nat true)
                = (Ok tt, (play None 12 (new_game (6, 7)%nat true)).2).
Proof.
  apply (random_play_as_explicit (new_game (6, 7)%nat true) 12);
    [apply reachable_new|reflexivity].
Defined.

(** ** Along a game *)

Section along.
Implicit Types (w : World) (o : op) (ops : list op).

Lemma reaches_run shape keep n w ops :
  reaches shape keep n w → ∃ n', (n ≤ n')%nat ∧ reaches shape keep n' (run ops w).
Proof.
  revert n w. induction ops as [|o ops IH]; intros n w Hreach; [by exists n|].
  simpl. destruct (IH _ _ (reaches_step _ _ _ _ o Hreach)) as (n' & Hle & Hreach').
  exists n'. split; [|done]. destruct (accepted o w); lia.
Qed.

Lemma snapshots_length shape n w :
  reaches shape true n w → length (snapshots w) = S n.
Proof.
  remember true as keep eqn:Hkeep. induction 1 as [w Hw|n w o Hreach IH]; subst keep.
  - rewrite Game_init_eq in Hw. by simplify_eq.
  - pose proof (reaches_wf _ _ _ _ Hreach) as Hwf.
    destruct (reaches_config _ _ _ _ Hreach) as [_ Hkeep].
    rewrite (snapshots_exec _ _ Hwf), Hkeep.
    destruct (accepted o w); [|by apply IH]. rewrite length_app, IH by done. simpl. lia.
Qed.

Lemma last_snapshot w : reachable w → last (snapshots w) = Some (grid w).
Proof.
  intros (shape & keep & n & Hreach). induction Hreach as [w Hw|n w o Hreach IH].
  - rewrite Game_init_eq in Hw. by simplify_eq.
  - pose proof (reaches_wf _ _ _ _ Hreach) as Hwf.
    rewrite (snapshots_exec _ _ Hwf).
    destruct (accepted o w) eqn:Hacc; [|by rewrite exec_not_accepted].
    destruct (save_history (self w)); [apply last_snoc|done].
Qed.

Lemma snapshot_exec_lookup w o (k : nat) x :
  wf w → save_history (self w) = true →
  snapshots w !! k = Some x → snapshots (exec o w) !! k = Some x.
Proof.
  intros Hw Hkeep Hk. rewrite (snapshots_exec _ _ Hw), Hkeep.
  destruct (accepted o w); [|done]. by apply lookup_app_l_Some.
Qed.

Lemma snapshot_run_lookup shape m w ops (k : nat) x :
  reaches shape true m w →
  snapshots w !! k = Some x → snapshots (run ops w) !! k = Some x.
Proof.
  revert m w. induction ops as [|o ops IH]; intros m w Hreach Hk; [done|].
  simpl. eapply IH; [by apply reaches_step|].
  apply snapshot_exec_lookup; [by eapply reaches_wf| |done].
  by destruct (reaches_config _ _ _ _ Hreach).
Qed.

(** An operation changes the grid only by filling an empty cell. *)
Lemma exec_cell w o (r c : nat) v :
  wf w → cell (grid w) r c = Some v → v ≠ 0 → cell (grid (exec o w)) r c = Some v.
Proof.
  intros Hw Hcell Hv.
  destruct (accepted o w) eqn:Hacc; [|by rewrite exec_not_accepted].
  destruct (accepted_inv _ _ Hw Hacc) as (move & draw & c0 & _ & _ & Hc & H0 & _ & _ & ->).
  rewrite cell_play_result by done. case_decide as Heq; [|done]. simplify_eq.
  destruct (landing_cell _ _ Hw Hc H0) as [_ Hempty]. rewrite Hempty in Hcell. by simplify_eq.
Qed.

Lemma exec_legal w o j :
  wf w → j ∈ legal_list (exec o w) → j ∈ legal_list w.
Proof.
  intros Hw Hj.
  destruct (accepted o w) eqn:Hacc; [|by rewrite exec_not_accepted in Hj].
  destruct (accepted_inv _ _ Hw Hacc)
    as (move & draw & c0 & _ & _ & Hc & H0 & Hnone & _ & Hexec).
  rewrite Hexec in Hj. pose proof (legal_no_winner _ _ Hj) as Hnone'.
  assert (wf (play_result w c0)) as Hw' by (by apply play_result_wf).
  apply legal_list_elem_of in Hj as (c & r & -> & Hcell); [|done..].
  apply legal_list_elem_of; [done..|]. exists c, r. split; [done|].
  rewrite cell_play_result in Hcell by done. case_decide; [|done].
  simplify_eq. by destruct (current_value_ne_0 _ Hw).
Qed.

End along.

(** X10: with history retention, the snapshot of index [n] is the grid as it
    was after the [n]-th applied move, and stays so whatever is played
    afterwards. *)
Theorem snapshot_kept shape n w ops :
  reaches shape true n w →
  snapshots (run ops w) !! n = Some (grid w).
Proof.
  intros Hreach. apply (snapshot_run_lookup shape n); [done|].
  rewrite <-(last_snapshot w) by (by exists shape, true, n).
  by rewrite last_lookup, (snapshots_length shape n).
Qed.

Lemma snapshot_kept_witness :
  reaches (6, 7)%nat true 1 (exec (op_play (Some 3) 0) (new_game (6, 7)%nat true)) ∧
  snapshots (run vertical_win (exec (op_play (Some 3) 0) (new_game (6, 7)%nat true))) !! 1%nat
  = Some (grid (exec (op_play (Some 3) 0) (new_game (6, 7)%nat true))).
Proof.
  assert (reaches (6, 7)%nat true 1 (exec (op_play (Some 3) 0) (new_game (6, 7)%nat true)))
    as Hreach.
  { apply (reaches_step (6, 7)%nat true 0 (new_game (6, 7)%nat true) (op_play (Some 3) 0)).
    by apply reaches_init. }
  split; [exact Hreach|].
  exact (snapshot_kept (6, 7)%nat 1 _ vertical_win Hreach).
Defined.

(** X11: a position without legal move is final: when [legal_plays()] is
    empty (a winner is set, or every column is full), no sequence of
    operations changes anything in the game. *)
Theorem terminal_absorbing w ops :
  legal_plays w = (Ok [], w) → run ops w = w.
Proof.
  rewrite legal_plays_run. intros [= Hnil].
  induction ops as [|o ops IH]; [done|]. simpl.
  assert (exec o w = w) as ->; [|done].
  destruct o as [| |move draw]; simpl; [by rewrite legal_plays_run|done|].
  destruct move as [m|].
  - rewrite (play_refused w (Some m) draw IllegalMove); [done|].
    unfold selected. rewrite Hnil. by rewrite bool_decide_eq_false_2 by apply not_elem_of_nil.
  - rewrite (play_refused w None draw NoLegalMoves); [done|].
    unfold selected. by rewrite Hnil.
Qed.

Lemma terminal_absorbing_witness :
  run [op_play (Some 0) 0; op_play None 4] (run vertical_win (new_game (6, 7)%nat true))
  = run vertical_win (new_game (6, 7)%nat true).
Proof.
  apply (terminal_absorbing (run vertical_win (new_game (6, 7)%nat true))).
  vm_compute. reflexivity.
Defined.

(** X12: the legal moves only shrink: a column that [legal_plays()] does not
    return is not returned later in the game either. *)
Theorem legal_plays_shrink w ops l l' j :
  reachable w →
  legal_plays w = (Ok l, w) → legal_plays (run ops w) = (Ok l', run ops w) →
  j ∈ l' → j ∈ l.
Proof.
  rewrite !legal_plays_run. intros Hreach [= <-] [= <-].
  revert w Hreach. induction ops as [|o ops IH]; intros w Hreach Hj; [done|].
  simpl in Hj. apply (exec_legal w o); [by apply reachable_wf|].
  apply IH; [by apply reachable_exec|done].
Qed.

Lemma legal_plays_shrink_witness :
  3 ∈ [0; 1; 2; 3; 4; 5; 6].
Proof.
  apply (legal_plays_shrink (new_game (6, 7)%nat true) [op_play (Some 3) 0]
           [0; 1; 2; 3; 4; 5; 6] [0; 1; 2; 3; 4; 5; 6] 3).
  - apply reachable_new.
  - reflexivity.
  - vm_compute. reflexivity.
  - compute_done.
Defined.

(** X13: a piece stays where it landed: an occupied cell of a reachable
    state holds the same value after any further operations. *)
Theorem piece_stays w ops (r c : nat) v :
  reachable w → cell (grid w) r c = Some v → v ≠ 0 →
  cell (grid (run ops w)) r c = Some v.
Proof.
  intros Hreach Hcell Hv. revert w Hreach Hcell.
  induction ops as [|o ops IH]; intros w Hreach Hcell; [done|].
  simpl. apply IH; [by apply reachable_exec|].
  by apply exec_cell; [apply reachable_wf|..].
Qed.

Lemma piece_stays_witness :
  cell (grid (run vertical_win (exec (op_play (Some 3) 0) (new_game (6, 7)%nat true)))) 5 3
  = Some 1.
Proof.
  apply (piece_stays (exec (op_play (Some 3) 0) (new_game (6, 7)%nat true)) vertical_win 5 3 1).
  - apply reachable_exec, reachable_new.
  - vm_compute. reflexivity.
  - done.
Defined.

(** ** Showing the board *)

Section showing.
Implicit Types (w : World) (x : np.ndarray) (row : list Z) (v k : Z) (b : bool).

Lemma show_element_cell v :
  is_cell v → show_element [1; 2] [player_A; player_B] v = [marker v].
Proof. by intros [-> | [-> | ->]]. Qed.

Lemma show_line_cells row :
  Forall is_cell row →
  row ≫= show_element [1; 2] [player_A; player_B] = marker <$> row.
Proof.
  induction 1 as [|v row Hv Hrow IH]; [done|].
  rewrite bind_cons, fmap_cons, IH, show_element_cell by done. done.
Qed.

Lemma show_board_at w k b l :
  wf w → list_getitem (history (self w)) k = Some l →
  Forall (Forall is_cell) (deref (heap w) l) →
  show_board k b w = (Ok (shown b (board_text (deref (heap w) l))), w).
Proof.
  intros Hw Hl Hcells. unfold show_board, mbind, M_bind, gets, try_some. simpl.
  rewrite Hl. simpl. rewrite (wf_players _ Hw), (wf_values _ Hw).
  assert ((λ line : list Z,
             py.join "|" (list_bind Z string (show_element [1; 2] [player_A; player_B]) line))
            <$> deref (heap w) l
          = (λ row : list Z, py.join "|" (marker <$> row)) <$> deref (heap w) l) as ->.
  { apply Forall_fmap_ext. eapply Forall_impl; [exact Hcells|].
    intros row Hrow. simpl.
    change (list_bind Z string (show_element [1; 2] [player_A; player_B]) row)
      with (row ≫= show_element [1; 2] [player_A; player_B]).
    by rewrite show_line_cells. }
  by destruct b.
Qed.

Lemma show_board_fail w k b :
  list_getitem (history (self w)) k = None → show_board k b w = (Raise IndexError, w).
Proof.
  intros Hl. unfold show_board, mbind, M_bind, gets, try_some. simpl. by rewrite Hl.
Qed.

Lemma snapshots_valid w : reachable w → Forall (Forall (Forall is_cell)) (snapshots w).
Proof.
  intros (shape & keep & n & Hreach). induction Hreach as [w Hw|n w o Hreach IH].
  - pose proof (Game_init_wf _ _ _ Hw) as Hwf. pose proof (wf_cells _ Hwf) as Hcells.
    rewrite Game_init_eq in Hw. simplify_eq. by repeat constructor.
  - pose proof (reaches_wf _ _ _ _ Hreach) as Hwf.
    pose proof (wf_cells _ (exec_wf o _ Hwf)) as Hcells.
    rewrite (snapshots_exec _ _ Hwf).
    destruct (accepted o w); [|done].
    destruct (save_history (self w)); [|by repeat constructor].
    apply Forall_app. split; [done|by repeat constructor].
Qed.

Lemma list_getitem_fmap {A B} (f : A → B) (l : list A) k :
  list_getitem (f <$> l) k = f <$> list_getitem l k.
Proof.
  unfold list_getitem. rewrite length_fmap.
  destruct (np.index (length l) k) as [i|]; simpl; [|done]. by rewrite list_lookup_fmap.
Qed.

Lemma show_board_snapshot w k b x :
  reachable w → list_getitem (snapshots w) k = Some x →
  show_board k b w = (Ok (shown b (board_text x)), w).
Proof.
  intros Hreach Hx. unfold snapshots in Hx. rewrite list_getitem_fmap in Hx.
  destruct (list_getitem (history (self w)) k) as [l|] eqn:Hl; simplify_eq/=.
  apply show_board_at; [by apply reachable_wf|done|].
  pose proof (snapshots_valid _ Hreach) as Hvalid. rewrite Forall_forall in Hvalid.
  apply Hvalid. unfold list_getitem in Hl.
  destruct (np.index _ _) as [i|]; simplify_eq/=.
  apply list_elem_of_fmap. exists l. split; [done|]. by eapply list_elem_of_lookup_2.
Qed.

Lemma getitem_last {A} (l : list A) : list_getitem l (-1) = last l.
Proof.
  unfold list_getitem, np.index. rewrite last_lookup.
  destruct l as [|a l]; [done|]. simpl length.
  rewrite decide_False by lia. rewrite decide_True by lia. simpl. f_equal. lia.
Qed.

Lemma show_board_last w b :
  reachable w → show_board (-1) b w = (Ok (shown b (board_text (grid w))), w).
Proof.
  intros Hreach. apply show_board_snapshot; [done|].
  by rewrite getitem_last, last_snapshot.
Qed.

End showing.

(** X14: in every reachable state, with or without history retention,
    [show_board()] gives the text of the current grid: one line per row, the
    cells of a row as [.], [O] (player A) and [X] (player B) separated by
    bars.  It is returned when [return_string] is set, printed otherwise, and
    the game is left as it was. *)
Theorem show_board_current w return_string :
  reachable w →
  show_board (-1) return_string w =
    (Ok (if return_string then (Some (board_text (grid w)), [])
         else (None, [board_text (grid w)])), w).
Proof.
  intros Hreach.
  assert (list_getitem (snapshots w) (-1) = Some (grid w)) as Hlast
    by (by rewrite getitem_last, last_snapshot).
  rewrite (show_board_snapshot w (-1) return_string (grid w) Hreach Hlast).
  by destruct return_string.
Qed.

Lemma show_board_current_witness :
  show_board (-1) true (new_game (6, 7)%nat true) =
    (Ok (Some (board_text (grid (new_game (6, 7)%nat true))), []), new_game (6, 7)%nat true).
Proof. apply (show_board_current (new_game (6, 7)%nat true) true), reachable_new. Defined.

(** X15: [show_board(k)] on a history of [len] snapshots shows snapshot [k]
    for [0 <= k < len] and snapshot [len + k] for [-len <= k < 0]; for any
    other [k] it raises [IndexError].  [len] is the number of applied moves
    plus one with history retention and one without.  The game is left as it
    was in every case. *)
Theorem show_board_index shape keep n w k return_string :
  reaches shape keep n w →
  length (snapshots w) = (if keep then S n else 1%nat) ∧
  (0 ≤ k < Z.of_nat (length (snapshots w)) →
   ∃ x, snapshots w !! Z.to_nat k = Some x ∧
        show_board k return_string w = (Ok (shown return_string (board_text x)), w)) ∧
  (- Z.of_nat (length (snapshots w)) ≤ k < 0 →
   ∃ x, snapshots w !! Z.to_nat (Z.of_nat (length (snapshots w)) + k) = Some x ∧
        show_board k return_string w = (Ok (shown return_string (board_text x)), w)) ∧
  (¬ (- Z.of_nat (length (snapshots w)) ≤ k < Z.of_nat (length (snapshots w))) →
   show_board k return_string w = (Raise IndexError, w)).
Proof.
  intros Hreach. assert (reachable w) as Hw by (by exists shape, keep, n).
  split_and!.
  - destruct keep; [by eapply snapshots_length|].
    clear Hw. remember false as keep eqn:Hkeep.
    induction Hreach as [w Hw|n w o Hreach IH]; subst keep.
    + rewrite Game_init_eq in Hw. by simplify_eq.
    + pose proof (reaches_wf _ _ _ _ Hreach) as Hwf.
      destruct (reaches_config _ _ _ _ Hreach) as [_ Hkeep].
      rewrite (snapshots_exec _ _ Hwf), Hkeep. destruct (accepted o w); [done|by apply IH].
  - intros Hk. destruct (lookup_lt_is_Some_2 (snapshots w) (Z.to_nat k)) as [x Hx]; [lia|].
    exists x. split; [done|]. apply show_board_snapshot; [done|].
    unfold list_getitem, np.index. by rewrite decide_True by lia.
  - intros Hk.
    destruct (lookup_lt_is_Some_2 (snapshots w)
                (Z.to_nat (Z.of_nat (length (snapshots w)) + k))) as [x Hx]; [lia|].
    exists x. split; [done|]. apply show_board_snapshot; [done|].
    unfold list_getitem, np.index. rewrite decide_False by lia.
    rewrite decide_True by lia. simpl. rewrite <-Hx. f_equal. lia.
  - intros Hk. apply show_board_fail.
    unfold list_getitem, np.index. unfold snapshots in Hk. rewrite length_fmap in Hk.
    by rewrite !decide_False by lia.
Qed.

Lemma show_board_index_witness :
  reaches (6, 7)%nat false 0 (new_game (6, 7)%nat false) ∧
  show_board 1 true (new_game (6, 7)%nat false) = (Raise IndexError, new_game (6, 7)%nat false).
Proof.
  assert (reaches (6, 7)%nat false 0 (new_game (6, 7)%nat false)) as Hreach
    by (by constructor).
  split; [exact Hreach|].
  apply (show_board_index (6, 7)%nat false 0 (new_game (6, 7)%nat false) 1 true Hreach).
  vm_compute. intros [_ H]. discriminate H.
Defined.

(** ** The driver *)

Section driver.
Implicit Types (w : World) (out : list string).

Lemma free_play_result w c :
  wf w → (c < (board_size (self w)).2)%nat → 0 ∈ col_of (grid w) c →
  S (free (grid (play_result w c))) = free (grid w).
Proof.
  intros Hw Hc H0. unfold free. rewrite grid_play_result by done.
  destruct (landing_column _ _ Hw Hc H0) as (_ & _ & row & Hlook & Hcell).
  pose proof (count_value_set_cell _ _ _ _ 0 (value (current_player (self w))) 0 Hlook Hcell)
    as Heq.
  rewrite decide_True in Heq by done.
  rewrite decide_False in Heq by (by apply current_value_ne_0). lia.
Qed.

(** One turn of the loop, in a state that has a legal move. *)
Lemma main_round_run w k draw :
  reachable w → legal_list w ≠ [] →
  accepted (op_play None draw) w = true ∧
  S (free (grid (exec (op_play None draw) w))) = free (grid w) ∧
  ∃ printed,
    main_round k draw w = (Ok printed, exec (op_play None draw) w) ∧
    last printed = Some (board_text (grid (exec (op_play None draw) w))).
Proof.
  intros Hreach Hne. pose proof (reachable_wf _ Hreach) as Hw.
  destruct (selected None draw (legal_list w)) as [e|j] eqn:Hsel.
  { simpl in Hsel. by destruct (legal_list w). }
  destruct (play_accepted _ _ _ _ Hw Hsel) as (c & -> & Hc & H0 & Hplay).
  pose proof (reachable_exec (op_play None draw) _ Hreach) as Hreach'.
  simpl in *. rewrite Hplay in *. simpl in *.
  split; [done|]. split; [by apply free_play_result|].
  unfold main_round. unfold mbind at 1, M_bind at 1. rewrite Hplay.
  unfold mbind at 1, M_bind at 1. rewrite winner_run.
  unfold mbind at 1, M_bind at 1. rewrite (show_board_last _ false Hreach').
  eexists. split; [reflexivity|].
  cbn [shown snd]. rewrite app_assoc. apply last_snoc.
Qed.

Lemma main_loop_run fuel draws k out shape keep n w :
  reaches shape keep n w → (free (grid w) < fuel)%nat →
  last out = Some (board_text (grid w)) →
  ∃ out' w' n',
    main_loop fuel draws k out w = Some (Ok out', w') ∧
    reaches shape keep n' w' ∧ legal_list w' = [] ∧
    last out' = Some (board_text (grid w')).
Proof.
  revert k out n w. induction fuel as [|fuel IH]; intros k out n w Hreach Hfuel Hout; [lia|].
  simpl. rewrite legal_plays_run.
  destruct (legal_list w) as [|j l] eqn:Hlegal.
  { by exists out, w, n. }
  assert (reachable w) as Hw by (by exists shape, keep, n).
  destruct (main_round_run w k (draws k) Hw) as (Hacc & Hfree & printed & -> & Hlast).
  { by rewrite Hlegal. }
  pose proof (reaches_step _ _ _ _ (op_play None (draws k)) Hreach) as Hstep.
  apply (IH (S k) (out ++ printed) _ _ Hstep); [lia|].
  destruct printed as [|t printed]; [done|]. by rewrite last_app_cons.
Qed.

End driver.

(** X16: [main()] always ends, without an exception: 43 turns of the loop
    are enough whatever the random generator draws.  It stops in a state of a
    6x7 game with at most 42 applied moves and no legal move (a player has
    won, or the board is full), and the last text it prints is that final
    board. *)
Theorem main_terminates fuel draws :
  (42 < fuel)%nat →
  ∃ out w n,
    main fuel draws = Some (Ok out, w) ∧
    reaches (6, 7)%nat true n w ∧ (n ≤ 42)%nat ∧
    legal_plays w = (Ok [], w) ∧
    (winner w = (Ok None, w) → ∀ r c, cell (grid w) r c ≠ Some 0) ∧
    last out = Some (board_text (grid w)).
Proof.
  intros Hfuel. unfold main.
  rewrite (show_board_last _ false (reachable_new _ _)).
  destruct (main_loop_run fuel draws 0 (shown false (board_text (grid (new_game (6, 7)%nat true)))).2
              (6, 7)%nat true 0 (new_game (6, 7)%nat true))
    as (out & w & n & Hmain & Hreach & Hlegal & Hlast).
  { by constructor. }
  { assert (free (grid (new_game (6, 7)%nat true)) = 42%nat) as -> by (by vm_compute). done. }
  { done. }
  exists out, w, n. pose proof (reaches_wf _ _ _ _ Hreach) as Hw.
  split_and!; [done..| | | |done].
  - pose proof (reaches_occupied _ _ _ _ Hreach) as Hocc.
    pose proof (occupied_le _ _ (wf_rect _ Hw)) as Hle.
    destruct (reaches_config _ _ _ _ Hreach) as [Hshape _].
    rewrite (wf_rows _ Hw), Hshape, Hocc in Hle. simpl in Hle. lia.
  - by rewrite legal_plays_run, Hlegal.
  - rewrite winner_run. intros [= Hnone] r c Hcell.
    assert (Z.of_nat c ∈ legal_list w) as Hin by (apply legal_list_elem_of; eauto).
    rewrite Hlegal in Hin. by apply elem_of_nil in Hin.
Qed.

Lemma main_terminates_witness :
  ∃ out w n,
    main 43 (λ k, 5 * k + 3)%nat = Some (Ok out, w) ∧
    reaches (6, 7)%nat true n w ∧ (n ≤ 42)%nat ∧
    legal_plays w = (Ok [], w) ∧
    (winner w = (Ok None, w) → ∀ r c, cell (grid w) r c ≠ Some 0) ∧
    last out = Some (board_text (grid w)).
Proof. apply (main_terminates 43 (λ k, 5 * k + 3)%nat). lia. Defined.

(** ** Errors of [play] *)



(** ** The list of legal moves *)

(** X18: [legal_plays()] never returns more moves than the board has
    columns, returns no move twice, and every move it returns is the index
    of a column of the board. *)
Theorem legal_plays_bound w l :
  reachable w → legal_plays w = (Ok l, w) →
  (length l ≤ (board_size (self w)).2)%nat ∧ NoDup l ∧
  ∀ j, j ∈ l → 0 ≤ j < Z.of_nat (board_size (self w)).2.
Proof.
  intros Hw%reachable_wf. rewrite legal_plays_run. intros [= <-].
  assert (∀ j, j ∈ legal_list w → 0 ≤ j < Z.of_nat (board_size (self w)).2) as Hrange.
  { intros j Hj. destruct (legal_column _ _ Hw Hj) as (c & -> & Hc & _). lia. }
  assert (NoDup (legal_list w)) as Hnodup.
  { unfold legal_list. destruct (winner_ (self w)); [constructor|].
    unfold np.argwhere. apply (NoDup_fmap_2 _), NoDup_filter, NoDup_seq. }
  split_and!; [|done..].
  assert (length (Z.to_nat <$> legal_list w) ≤ length (seq 0 (board_size (self w)).2))%nat
    as Hle.
  { apply submseteq_length, NoDup_submseteq.
    - apply NoDup_fmap_2_strong; [|done].
      intros j1 j2 H1%Hrange H2%Hrange Heq. lia.
    - intros k (j & -> & Hj%Hrange)%list_elem_of_fmap. apply elem_of_seq. lia. }
  by rewrite length_fmap, length_seq in Hle.
Qed.

Lemma legal_plays_bound_witness :
  (length [0; 1; 2; 3; 4; 5; 6] ≤ (board_size (self (new_game (6, 7)%nat true))).2)%nat ∧
  NoDup [0; 1; 2; 3; 4; 5; 6] ∧
  ∀ j, j ∈ [0; 1; 2; 3; 4; 5; 6] →
       0 ≤ j < Z.of_nat (board_size (self (new_game (6, 7)%nat true))).2.
Proof.
  apply (legal_plays_bound (new_game (6, 7)%nat true) [0; 1; 2; 3; 4; 5; 6]);
    [apply reachable_new|reflexivity].
Defined.

(** X19: in a new game every column is legal, provided the board has a row;
    on a board without rows (or without columns) no move is legal. *)
Theorem new_game_legal_plays shape keep l j :
  legal_plays (new_game shape keep) = (Ok l, new_game shape keep) →
  j ∈ l ↔ (0 < shape.1)%nat ∧ 0 ≤ j < Z.of_nat shape.2.
Proof.
  rewrite legal_plays_run. intros [= <-].
  assert (wf (new_game shape keep)) as Hw by (by apply (Game_init_wf shape keep)).
  rewrite legal_list_elem_of by done.
  change (grid (new_game shape keep)) with (np.zeros shape). split.
  - intros (c & r & -> & (row & Hrow & Hc)%cell_Some).
    unfold np.zeros in Hrow. apply lookup_replicate in Hrow as [-> Hr].
    apply lookup_replicate in Hc as [_ Hc]. lia.
  - intros [Hr Hj]. exists (Z.to_nat j), 0%nat. split; [lia|].
    apply cell_Some. exists (replicate shape.2 0). split.
    + unfold np.zeros. by apply lookup_replicate_2.
    + apply lookup_replicate_2. lia.
Qed.

Lemma new_game_legal_plays_witness :
  6 ∈ [0; 1; 2; 3; 4; 5; 6] ↔ (0 < 6)%nat ∧ 0 ≤ 6 < Z.of_nat 7.
Proof.
  apply (new_game_legal_plays (6, 7)%nat true [0; 1; 2; 3; 4; 5; 6] 6). reflexivity.
Defined.

(** ** Players *)

(** X20: among the players of a game, equality by [__eq__] (same value) is
    identity: the two registered players are distinct for [__eq__], and the
    current player and the winner, if any, are registered players. *)
Theorem players_eq_identity w p q :
  reachable w → p ∈ players (self w) → q ∈ players (self w) →
  (Player_eq p q = true ↔ p = q) ∧
  current_player (self w) ∈ players (self w) ∧
  (∀ p', winner w = (Ok (Some p'), w) → p' ∈ players (self w)).
Proof.
  intros Hw%reachable_wf. rewrite (wf_players _ Hw). intros Hp Hq.
  assert (∀ p0, p0 ∈ [player_A; player_B] ↔ p0 = player_A ∨ p0 = player_B) as Hin.
  { intros p0. rewrite !elem_of_cons, elem_of_nil. tauto. }
  apply Hin in Hp, Hq. split_and!.
  - destruct Hp as [-> | ->], Hq as [-> | ->]; by split.
  - apply Hin, current_player_cases, Hw.
  - intros p'. rewrite winner_run. intros [= Hp'].
    destruct (wf_winner _ Hw) as [Hnone|Hsome]; [congruence|].
    rewrite Hsome in Hp'. simplify_eq. apply Hin, current_player_cases, Hw.
Qed.

Lemma players_eq_identity_witness :
  (Player_eq player_A player_B = true ↔ player_A = player_B) ∧
  current_player (self (new_game (6, 7)%nat true)) ∈ players (self (new_game (6, 7)%nat true)) ∧
  (∀ p', winner (new_game (6, 7)%nat true) = (Ok (Some p'), new_game (6, 7)%nat true) →
         p' ∈ players (self (new_game (6, 7)%nat true))).
Proof.
  apply (players_eq_identity (new_game (6, 7)%nat true) player_A player_B).
  - apply reachable_new.
  - left.
  - right. left.
Defined.

(** ** The text of a board determines the board *)

Section board_text_facts.
Implicit Types (x y : np.ndarray) (row : list Z) (v u : Z) (s t : string).

Lemma string_length_app s t :
  String.length (s +:+ t) = (String.length s + String.length t)%nat.
Proof. induction s as [|a s IH]; simpl; [done|]. by rewrite IH. Qed.

Lemma string_app_inj s s' t t' :
  String.length s = String.length s' → s +:+ t = s' +:+ t' → s = s' ∧ t = t'.
Proof.
  revert s'. induction s as [|a s IH]; intros [|a' s'] Hlen Heq; simplify_eq/=; [done|].
  destruct (IH s' Hlen) as [-> ->]; [done|]. done.
Qed.

Lemma marker_inj v u : is_cell v → is_cell u → marker v = marker u → v = u.
Proof. by intros [-> | [-> | ->]] [-> | [-> | ->]]. Qed.

Lemma marker_length v : String.length (marker v) = 1%nat.
Proof. unfold marker. by repeat case_match. Qed.

Lemma join_cons2 sep s t (l : list string) :
  py.join sep (s :: t :: l) = s +:+ sep +:+ py.join sep (t :: l).
Proof. done. Qed.

Lemma row_text_length row :
  row ≠ [] → String.length (row_text row) = (2 * length row - 1)%nat.
Proof.
  induction row as [|v [|u row] IH]; intros Hne; [done|..].
  - apply marker_length.
  - unfold row_text in *. rewrite !fmap_cons, join_cons2, !string_length_app.
    rewrite <-!fmap_cons, IH, marker_length by done. simpl. lia.
Qed.

Lemma row_text_inj row row' :
  Forall is_cell row → Forall is_cell row' → length row = length row' →
  row_text row = row_text row' → row = row'.
Proof.
  intros Hrow. revert row'.
  induction Hrow as [|v row Hv Hrow IH]; intros row' Hrow' Hlen Heq.
  { by destruct row'. }
  destruct Hrow' as [|v' row' Hv' Hrow']; [done|].
  destruct row as [|u row], row' as [|u' row']; simplify_eq/=.
  - f_equal. by apply marker_inj.
  - unfold row_text in Heq. rewrite !fmap_cons, !join_cons2 in Heq.
    apply string_app_inj in Heq as [Hm Heq]; [|by rewrite !marker_length].
    apply string_app_inj in Heq as [_ Heq]; [|done].
    f_equal; [by apply marker_inj|].
    apply IH; [done|by simpl; f_equal|done].
Qed.

Lemma board_text_cons2 row row' x :
  board_text (row :: row' :: x) = row_text row +:+ newline +:+ board_text (row' :: x).
Proof. done. Qed.

End board_text_facts.

(** X21: the text [show_board] produces determines the grid: two grids of
    the same positive width whose cells hold 0, 1 or 2 and that have the same
    text are equal. *)
Theorem board_text_inj n x y :
  (0 < n)%nat → rect n x → rect n y →
  Forall (Forall is_cell) x → Forall (Forall is_cell) y →
  board_text x = board_text y → x = y.
Proof.
  intros Hn Hx. revert y.
  assert (∀ row, length row = n → String.length (row_text row) = (2 * n - 1)%nat) as Hlen.
  { intros row <-. apply row_text_length. intros ->. simpl in Hn. lia. }
  induction Hx as [|row x Hrow Hx IH]; intros y Hy Hcx Hcy Heq.
  - destruct Hy as [|row' y Hrow' Hy]; [done|]. exfalso.
    apply (f_equal String.length) in Heq. simpl in Heq.
    destruct y as [|row2 y].
    + change (board_text [row']) with (row_text row') in Heq. rewrite Hlen in Heq by done. lia.
    + rewrite board_text_cons2, string_length_app, Hlen in Heq by done. lia.
  - destruct Hy as [|row' y Hrow' Hy].
    { exfalso. apply (f_equal String.length) in Heq. simpl in Heq.
      destruct x as [|row2 x].
      + change (board_text [row]) with (row_text row) in Heq. rewrite Hlen in Heq by done. lia.
      + rewrite board_text_cons2, string_length_app, Hlen in Heq by done. lia. }
    apply Forall_cons in Hcx as [Hcrow Hcx]. apply Forall_cons in Hcy as [Hcrow' Hcy].
    simpl in Hrow, Hrow'.
    destruct x as [|row2 x], y as [|row2' y].
    + f_equal. apply row_text_inj; [done..|congruence|done].
    + exfalso. apply (f_equal String.length) in Heq.
      change (board_text [row]) with (row_text row) in Heq.
      rewrite board_text_cons2, !string_length_app, !Hlen in Heq by done.
      simpl in Heq. lia.
    + exfalso. apply (f_equal String.length) in Heq.
      change (board_text [row']) with (row_text row') in Heq.
      rewrite board_text_cons2, !string_length_app, !Hlen in Heq by done.
      simpl in Heq. lia.
    + rewrite !board_text_cons2 in Heq.
      apply string_app_inj in Heq as [Hr Heq]; [|by rewrite !Hlen].
      apply string_app_inj in Heq as [_ Heq]; [|done].
      f_equal; [apply row_text_inj; [done..|congruence|done]|].
      by apply IH.
Qed.

Lemma board_text_inj_witness :
  grid (new_game (6, 7)%nat true) = grid (new_game (6, 7)%nat false).
Proof.
  apply (board_text_inj 7).
  - lia.
  - apply (wf_rect (new_game (6, 7)%nat true)), reachable_wf, reachable_new.
  - apply (wf_rect (new_game (6, 7)%nat false)), reachable_wf, reachable_new.
  - apply (wf_cells (new_game (6, 7)%nat true)), reachable_wf, reachable_new.
  - apply (wf_cells (new_game (6, 7)%nat false)), reachable_wf, reachable_new.
  - reflexivity.
Defined.
